(** * MusicPlayer: the playback state machine of the player widget

    A shallow embedding of [MusicPlayer] (the component mounted by
    [src/app/page.tsx]): its hook state, the two effects, the transport
    controls, the end-of-track handler and the pointer handlers of the
    seek bar and the volume bar.

    - JavaScript numbers that hold times, volumes and pixel coordinates
      are IEEE 754 binary64 values ([spec_float] with precision 53 and
      maximal exponent 1024), so NaN, the infinities and the signed
      zeros behave as they do in the browser.
    - The track index is an integer ([Z]).
    - The media element is opaque: the component's commands to it are
      recorded in a log, in the order they are issued.
    - [Math.random] is an oracle: the k-th evaluation of
      [Math.floor(Math.random() * songs.length)] is [rand k]. *)

From Stdlib Require Import ZArith List Bool Lia.
From Stdlib Require String.
Import String.StringSyntax.
From Stdlib Require Import Floats.SpecFloat.
From Stdlib Require Import DecimalString.
Import ListNotations.
Open Scope Z_scope.

(** ** JavaScript numbers *)

Module JS.

Definition number := spec_float.

Definition prec : Z := 53.
Definition emax : Z := 1024.

Definition sub : number -> number -> number := SFsub prec emax.
Definition div : number -> number -> number := SFdiv prec emax.
Definition mul : number -> number -> number := SFmul prec emax.

Definition zero : number := S754_zero false.
Definition one : number := S754_finite false 4503599627370496 (-52).
Definition hundred : number := S754_finite false 7036874417766400 (-46).
(** The literal [0.2]: the double nearest to one fifth. *)
Definition lit_0_2 : number := S754_finite false 7205759403792794 (-55).
Definition NaN : number := S754_nan.

(** The double of an integer literal. *)
Definition of_Z (z : Z) : number := binary_normalize prec emax z 0 false.

Definition is_nan (x : number) : bool :=
  match x with S754_nan => true | _ => false end.

Definition is_zero (x : number) : bool :=
  match x with S754_zero _ => true | _ => false end.

Definition is_neg_zero (x : number) : bool :=
  match x with S754_zero true => true | _ => false end.

(** ToBoolean on a number: [0], [-0] and [NaN] are falsy. *)
Definition truthy (x : number) : bool := negb (is_zero x || is_nan x).

(** [x || y] on numbers. *)
Definition or_else (x y : number) : number := if truthy x then x else y.

(** [Math.max(x, y)]: NaN if either is NaN; [+0] is larger than [-0]. *)
Definition Math_max (x y : number) : number :=
  match SFcompare x y with
  | None => NaN
  | Some Lt => y
  | Some Gt => x
  | Some Eq => if is_neg_zero x then y else x
  end.

(** [Math.min(x, y)]: NaN if either is NaN; [-0] is smaller than [+0]. *)
Definition Math_min (x y : number) : number :=
  match SFcompare x y with
  | None => NaN
  | Some Lt => x
  | Some Gt => y
  | Some Eq => if is_neg_zero y then y else x
  end.

(** [Object.is] on numbers: NaN is itself, the zeros differ. *)
Definition same_value (x y : number) : bool :=
  match x, y with
  | S754_nan, S754_nan => true
  | S754_zero a, S754_zero b => Bool.eqb a b
  | S754_infinity a, S754_infinity b => Bool.eqb a b
  | S754_finite a m e, S754_finite b n f =>
      Bool.eqb a b && Pos.eqb m n && Z.eqb e f
  | _, _ => false
  end.

Definition leb : number -> number -> bool := SFleb.
Definition ltb : number -> number -> bool := SFltb.
Definition eqb : number -> number -> bool := SFeqb.

(** [clamp(p, 0, 1)] as the specification words it: 0 at or below 0,
    1 at or above 1, [p] itself in between. *)
Definition spec_clamp (p : number) : number :=
  if leb p zero then zero else if leb one p then one else p.

(** Neither NaN nor an infinity; and, of those, not a zero. *)
Definition is_finite (x : number) : bool :=
  match x with S754_zero _ | S754_finite _ _ _ => true | _ => false end.

Definition is_finite_nonzero (x : number) : bool :=
  match x with S754_finite _ _ _ => true | _ => false end.

(** A value lies in the closed unit interval. *)
Definition in_unit (x : number) : bool := leb zero x && leb x one.

(** *** Arithmetic and printing used by the time labels *)

Definition sixty : number := S754_finite false 8444249301319680 (-47).

(** [Math.floor]: the integer at or below [x], exactly; NaN, the
    infinities and the zeros are returned as they are, and a positive
    fraction below 1 gives [+0]. *)
Definition Math_floor (x : number) : number :=
  match x with
  | S754_finite s m e =>
      if 0 <=? e then x
      else
        let d := 2 ^ (- e) in
        let q := Z.pos m / d in
        let r := Z.pos m mod d in
        if s then binary_normalize prec emax (- (if r =? 0 then q else q + 1)) 0 true
        else binary_normalize prec emax q 0 false
  | _ => x
  end.

(** [x % y], the remainder of the truncating division, which is exact;
    it has the sign of [x]. *)
Definition remainder (x y : number) : number :=
  match x, y with
  | S754_nan, _ | _, S754_nan => NaN
  | S754_infinity _, _ => NaN
  | _, S754_zero _ => NaN
  | _, S754_infinity _ => x
  | S754_zero _, _ => x
  | S754_finite sx mx ex, S754_finite _ my ey =>
      let e0 := Z.min ex ey in
      let X := Z.pos mx * 2 ^ (ex - e0) in
      let Y := Z.pos my * 2 ^ (ey - e0) in
      let R := X mod Y in
      binary_normalize prec emax (if sx then - R else R) e0 sx
  end.

(** The integer a number is, if it is one. *)
Definition integer_value (x : number) : option Z :=
  match x with
  | S754_zero _ => Some 0
  | S754_finite s m e =>
      if 0 <=? e then Some (cond_Zopp s (Z.pos m * 2 ^ e))
      else if Z.pos m mod 2 ^ (- e) =? 0
           then Some (cond_Zopp s (Z.pos m / 2 ^ (- e)))
           else None
  | _ => None
  end.

(** The decimal digits of an integer, with a minus sign when negative. *)
Definition decimal (z : Z) : String.string :=
  NilZero.string_of_int (Z.to_int z).

(** [Number.prototype.toString]: NaN and the infinities by name, both
    zeros as 0, an integer up to 2^53 in magnitude by its decimal
    digits, which are the shortest that round back to it. For the
    numbers left (fractions and larger magnitudes) the digits are those
    of [other]. *)
Local Open Scope string_scope.

Definition toString (other : number -> String.string) (x : number)
    : String.string :=
  match x with
  | S754_nan => "NaN"
  | S754_infinity false => "Infinity"
  | S754_infinity true => "-Infinity"
  | _ =>
      match integer_value x with
      | Some z => if Z.abs z <=? 2 ^ 53 then decimal z else other x
      | None => other x
      end
  end.

Local Close Scope string_scope.

(** [k] characters read off [pad] again and again, continuing at [cur]. *)
Fixpoint fill (k : nat) (pad cur : String.string) : String.string :=
  match k with
  | O => String.EmptyString
  | S k' =>
      match cur with
      | String.String c rest => String.String c (fill k' pad rest)
      | String.EmptyString =>
          match pad with
          | String.String c rest => String.String c (fill k' pad rest)
          | String.EmptyString => String.EmptyString
          end
      end
  end.

(** [s.padStart(target, pad)]. *)
Definition padStart (target : nat) (pad s : String.string) : String.string :=
  let len := String.length s in
  if (target <=? len)%nat then s
  else String.append (fill (target - len) pad pad) s.

End JS.

(** ** Results of running a handler *)

(** A handler either completes, dies with a [TypeError] (a property read
    on [null] or [undefined]), or is still inside the re-draw loop of
    [shuffle] when the budget of loop iterations is used up. *)
Inductive outcome (A : Type) : Type :=
| Done (a : A)
| TypeError
| Spinning.
Arguments Done {A} a.
Arguments TypeError {A}.
Arguments Spinning {A}.

Definition bind {A B} (m : outcome A) (k : A -> outcome B) : outcome B :=
  match m with
  | Done a => k a
  | TypeError => TypeError
  | Spinning => Spinning
  end.

Notation "x <- m ;; k" := (bind m (fun x => k))
  (at level 61, m at next level, right associativity).

Module MusicPlayer.

Import JS.

(** ** Data model *)

Inductive PlayerState := playing | paused | loading.

Inductive RepeatMode := Off | One | All.

Record Song := mkSong {
  src : String.string;
  title : String.string;
  artist : String.string
}.

(** The values of the eight [useState] cells as one render sees them. *)
Record Hooks := mkHooks {
  current : Z;
  state : PlayerState;
  progress : number;
  duration : number;
  volume : number;
  userStarted : bool;
  isShuffle : bool;
  repeatMode : RepeatMode
}.

(** Commands issued to the media element. *)
Inductive Command :=
| Play
| Pause
| Load
| SetCurrentTime (t : number)
| SetVolume (v : number).

(** Listeners a drag registers on [window]; a seek listener carries the
    [duration] its [update] closure captured at pointer-down. *)
Inductive Listener :=
| SeekMouseMove (d : number)
| SeekMouseUp (d : number)
| SeekTouchMove (d : number)
| SeekTouchEnd (d : number)
| VolumeMouseMove
| VolumeMouseUp
| VolumeTouchMove
| VolumeTouchEnd.

Definition Listener_eqb (a b : Listener) : bool :=
  match a, b with
  | SeekMouseMove d, SeekMouseMove e
  | SeekMouseUp d, SeekMouseUp e
  | SeekTouchMove d, SeekTouchMove e
  | SeekTouchEnd d, SeekTouchEnd e => same_value d e
  | VolumeMouseMove, VolumeMouseMove
  | VolumeMouseUp, VolumeMouseUp
  | VolumeTouchMove, VolumeTouchMove
  | VolumeTouchEnd, VolumeTouchEnd => true
  | _, _ => false
  end.

(** The component instance together with what surrounds it.
    - [hooks]: the committed hook state;
    - [audioRef]: whether [audioRef.current] holds the element; React
      sets it at mount and clears it at unmount;
    - [attached]: the render whose [updateProgress], [setMeta] and
      [onEnd] closures are registered on the element, if any;
    - [timers]: the [togglePlay] calls waiting for their 400 ms timer,
      each with its [next];
    - [window]: listeners registered on [window] by drags;
    - [draws]: how many random indices were drawn so far;
    - [log]: the commands sent to the element, oldest first;
    - [awaiting]: the [togglePlay] calls stopped at their
      [await audioRef.current.play()], the promise not yet settled. *)
Record World := mkWorld {
  hooks : Hooks;
  audioRef : bool;
  attached : option Hooks;
  timers : list PlayerState;
  window : list Listener;
  draws : nat;
  log : list Command;
  awaiting : nat
}.

(** The bounding box of a bar as [getBoundingClientRect] reports it. *)
Record Rect := mkRect { rect_left : number; rect_width : number }.

Definition PlayerState_eqb (a b : PlayerState) : bool :=
  match a, b with
  | playing, playing | paused, paused | loading, loading => true
  | _, _ => false
  end.

Definition RepeatMode_eqb (a b : RepeatMode) : bool :=
  match a, b with
  | Off, Off | One, One | All, All => true
  | _, _ => false
  end.

(** *** State setters *)

Definition with_hooks (h : Hooks) (w : World) : World :=
  mkWorld h (audioRef w) (attached w) (timers w) (window w) (draws w) (log w)
    (awaiting w).

Definition setCurrent (f : Z -> Z) (w : World) : World :=
  let h := hooks w in
  with_hooks (mkHooks (f (current h)) (state h) (progress h) (duration h)
                (volume h) (userStarted h) (isShuffle h) (repeatMode h)) w.

Definition setState (s : PlayerState) (w : World) : World :=
  let h := hooks w in
  with_hooks (mkHooks (current h) s (progress h) (duration h)
                (volume h) (userStarted h) (isShuffle h) (repeatMode h)) w.

Definition setProgress (p : number) (w : World) : World :=
  let h := hooks w in
  with_hooks (mkHooks (current h) (state h) p (duration h)
                (volume h) (userStarted h) (isShuffle h) (repeatMode h)) w.

Definition setDuration (d : number) (w : World) : World :=
  let h := hooks w in
  with_hooks (mkHooks (current h) (state h) (progress h) d
                (volume h) (userStarted h) (isShuffle h) (repeatMode h)) w.

Definition setVolume (v : number) (w : World) : World :=
  let h := hooks w in
  with_hooks (mkHooks (current h) (state h) (progress h) (duration h)
                v (userStarted h) (isShuffle h) (repeatMode h)) w.

Definition setUserStarted (b : bool) (w : World) : World :=
  let h := hooks w in
  with_hooks (mkHooks (current h) (state h) (progress h) (duration h)
                (volume h) b (isShuffle h) (repeatMode h)) w.

Definition setIsShuffle (f : bool -> bool) (w : World) : World :=
  let h := hooks w in
  with_hooks (mkHooks (current h) (state h) (progress h) (duration h)
                (volume h) (userStarted h) (f (isShuffle h)) (repeatMode h)) w.

Definition setRepeatMode (f : RepeatMode -> RepeatMode) (w : World) : World :=
  let h := hooks w in
  with_hooks (mkHooks (current h) (state h) (progress h) (duration h)
                (volume h) (userStarted h) (isShuffle h) (f (repeatMode h))) w.

(** *** The world outside the hooks *)

Definition send (c : Command) (w : World) : World :=
  mkWorld (hooks w) (audioRef w) (attached w) (timers w) (window w) (draws w)
    (log w ++ [c]) (awaiting w).

(** The volume the element was given last, if any. *)
Definition last_volume (cmds : list Command) : option number :=
  fold_left (fun acc c => match c with SetVolume v => Some v | _ => acc end)
    cmds None.

Definition with_audioRef (b : bool) (w : World) : World :=
  mkWorld (hooks w) b (attached w) (timers w) (window w) (draws w) (log w)
    (awaiting w).

Definition with_attached (a : option Hooks) (w : World) : World :=
  mkWorld (hooks w) (audioRef w) a (timers w) (window w) (draws w) (log w)
    (awaiting w).

Definition with_timers (t : list PlayerState) (w : World) : World :=
  mkWorld (hooks w) (audioRef w) (attached w) t (window w) (draws w) (log w)
    (awaiting w).

Definition with_window (l : list Listener) (w : World) : World :=
  mkWorld (hooks w) (audioRef w) (attached w) (timers w) l (draws w) (log w)
    (awaiting w).

Definition with_draws (k : nat) (w : World) : World :=
  mkWorld (hooks w) (audioRef w) (attached w) (timers w) (window w) k (log w)
    (awaiting w).

Definition with_awaiting (a : nat) (w : World) : World :=
  mkWorld (hooks w) (audioRef w) (attached w) (timers w) (window w) (draws w)
    (log w) a.

Definition addEventListener (l : Listener) (w : World) : World :=
  with_window (window w ++ [l]) w.

Fixpoint remove_first (l : Listener) (ls : list Listener) : list Listener :=
  match ls with
  | [] => []
  | x :: xs => if Listener_eqb l x then xs else x :: remove_first l xs
  end.

Definition removeEventListener (l : Listener) (w : World) : World :=
  with_window (remove_first l (window w)) w.

(** The state a fresh mount starts from (the [useState] initial values);
    nothing is attached and the ref is still empty. *)
Definition initial_hooks : Hooks :=
  mkHooks 0 paused zero zero lit_0_2 false false Off.

Definition initial : World :=
  mkWorld initial_hooks false None [] [] 0%nat [] 0%nat.


(** What a handler other than mounting and unmounting leaves behind: the
    ref is as it was; the commands it sent are play, pause or seeks,
    never load and never a volume; the user-started flag is not taken
    back; progress and duration do not turn into NaN. *)
Definition benign (c : Command) : bool :=
  match c with
  | Play | Pause | SetCurrentTime _ => true
  | Load | SetVolume _ => false
  end.

Definition footprint (w w' : World) : Prop :=
  audioRef w' = audioRef w /\
  (exists cmds, log w' = log w ++ cmds /\ forallb benign cmds = true) /\
  (userStarted (hooks w) = true -> userStarted (hooks w') = true) /\
  (is_nan (progress (hooks w)) = false ->
   is_nan (progress (hooks w')) = false) /\
  (is_nan (duration (hooks w)) = false ->
   is_nan (duration (hooks w')) = false).

(** The volume in state is in the unit interval, and so is every volume
    the element was given. *)
Definition volume_ok (w : World) : Prop :=
  in_unit (volume (hooks w)) = true /\
  forall v, In (SetVolume v) (log w) -> in_unit v = true.

Definition keeps_unit (w w' : World) : Prop :=
  in_unit (volume (hooks w)) = true -> in_unit (volume (hooks w')) = true.

(** ** The component *)

Section Component.

(** The playlist, and the oracle behind [Math.random]: [rand k] is the
    value of the k-th evaluation of
    [Math.floor(Math.random() * songs.length)]. *)
Variable songs : list Song.
Variable rand : nat -> Z.

Definition songs_length : Z := Z.of_nat (List.length songs).

(** *** Effects *)

(** The cleanup of the audio-sync effect: the three listeners go. *)
Definition audio_sync_cleanup (w : World) : World :=
  with_attached None w.

(** The audio-sync effect (lines 90-134), dependencies
    [[current, volume]]: push the volume, then register [updateProgress],
    [setMeta] and [onEnd] as this render defines them. *)
Definition audio_sync (w : World) : World :=
  if negb (audioRef w) then w
  else with_attached (Some (hooks w)) (send (SetVolume (volume (hooks w))) w).

(** The track-change effect (lines 136-146), dependencies [[current]].
    Its last statement is [setState(state)], with the [state] of the
    render it belongs to. *)
Definition track_change (w : World) : World :=
  if negb (userStarted (hooks w)) then w
  else if negb (audioRef w) then w
  else setState (state (hooks w)) (send Play (send Load w)).

(** What React does after a handler returned: an effect runs again when
    one of its dependencies differs ([Object.is]) from the previous
    render's; cleanups come first, then the effects in source order. *)
Definition commit (prev : Hooks) (w : World) : World :=
  let h := hooks w in
  let current_changed := negb (current prev =? current h) in
  let volume_changed := negb (same_value (volume prev) (volume h)) in
  let w1 := if current_changed || volume_changed
            then audio_sync (audio_sync_cleanup w) else w in
  if current_changed then track_change w1 else w1.

(** Mounting creates a fresh instance: the hooks start from their
    [useState] initial values, the ref is set to a new element, and both
    effects run on that first render. Timers, promises and window
    listeners of an instance mounted before belong to that instance,
    whose state and ref are dead; of the world before, only the position
    in the random draws is kept. *)
Definition mount (w : World) : World :=
  track_change (audio_sync (with_audioRef true (with_draws (draws w) initial))).

Definition unmount (w : World) : World :=
  with_audioRef false (audio_sync_cleanup w).

(** *** Media listeners *)

(** [updateProgress] and [setMeta] read the element's [currentTime] and
    [duration], which are inputs of the event here. *)
Definition updateProgress (currentTime dur : number) (w : World) : World :=
  setProgress (or_else (mul (div currentTime dur) hundred) zero) w.

Definition setMeta (dur : number) (w : World) : World :=
  setDuration (or_else dur zero) w.

(** *** Controls

    A function defined in the component body reads the state variables
    of the render that created it: the argument [c]. *)

(** [audioRef.current.m()] without a guard. *)
Definition command (m : Command) (w : World) : outcome World :=
  if audioRef w then Done (send m w) else TypeError.

(** [togglePlay] (lines 150-167) up to its [await] of the 400 ms timer. *)
Definition togglePlay (c : Hooks) (w : World) : World :=
  if negb (audioRef w) || PlayerState_eqb (state c) loading then w
  else
    let w1 := setUserStarted true w in
    let next := if PlayerState_eqb (state c) playing then paused else playing in
    let w2 := setState loading w1 in
    with_timers (timers w2 ++ [next]) w2.

(** [togglePlay] after the timer fired (lines 160-166): the ref is read
    again, with no check. On the pause path the call runs to its end. On
    the play path it sends play and stops at the [await] of the promise
    that [play()] returns. *)
Definition togglePlay_resume (next : PlayerState) (w : World) : outcome World :=
  if PlayerState_eqb next playing then
    w1 <- command Play w ;;
    Done (with_awaiting (S (awaiting w1)) w1)
  else
    w1 <- command Pause w ;;
    Done (setState next w1).

(** The promise of [play()] settles. Fulfilled, the call that waited for
    it goes on to [setState(next)], and [next] is "playing" on this path;
    rejected, the call ends there and [setState] is never reached. *)
Definition togglePlay_settle (fulfilled : bool) (w : World) : World :=
  match awaiting w with
  | O => w
  | S k =>
      if fulfilled then setState playing (with_awaiting k w)
      else with_awaiting k w
  end.

Definition toggleShuffle (w : World) : World :=
  setIsShuffle (fun s => negb s) w.

Definition toggleRepeat (w : World) : World :=
  setRepeatMode (fun mode =>
    if RepeatMode_eqb mode Off then One
    else if RepeatMode_eqb mode One then All
    else Off) w.

(** The [do ... while (next === current)] loop of [shuffle], from the
    k-th draw on: the drawn index and the number of draws made, or [None]
    when [fuel] iterations did not leave the loop. *)
Fixpoint redraw (fuel : nat) (cur : Z) (k : nat) : option (Z * nat) :=
  match fuel with
  | O => None
  | S fuel' =>
      let next := rand k in
      if next =? cur then redraw fuel' cur (S k) else Some (next, S k)
  end.

Definition shuffle (fuel : nat) (c : Hooks) (w : World) : outcome World :=
  if songs_length <=? 1 then Done w
  else
    match redraw fuel (current c) (draws w) with
    | None => Spinning
    | Some (next, k) => Done (setCurrent (fun _ => next) (with_draws k w))
    end.

(** [%] is the remainder of integers. On an empty playlist JavaScript
    yields NaN where [Z.rem] yields its first argument; no handler runs
    there, since rendering [songs[current].src] throws first. *)
Definition nextSong (fuel : nat) (c : Hooks) (w : World) : outcome World :=
  if isShuffle c then shuffle fuel c w
  else Done (setCurrent (fun prev => Z.rem (prev + 1) songs_length) w).

Definition prevSong (w : World) : World :=
  setCurrent (fun prev => if prev =? 0 then songs_length - 1 else prev - 1) w.

(** The [ended] listener (lines 102-123). [shuffle] and [nextSong] are
    the functions of the same render, so they read the same [c]. *)
Definition onEnd (fuel : nat) (c : Hooks) (w : World) : outcome World :=
  if RepeatMode_eqb (repeatMode c) One then
    Done (if audioRef w then send Play w else w)
  else if isShuffle c then shuffle fuel c w
  else if RepeatMode_eqb (repeatMode c) All then nextSong fuel c w
  else if current c <? songs_length - 1 then nextSong fuel c w
  else Done (setState paused w).

(** *** Seek bar and volume bar *)

Definition percent_at (clientX : number) (rect : Rect) : number :=
  div (sub clientX (rect_left rect)) (rect_width rect).

(** [update] of the seek bar; [d] is the [duration] of the render whose
    handler created the closure. The mouse and the touch handler define
    it with the same text. *)
Definition seek_update (d : number) (clientX : number) (rect : Rect)
    (w : World) : World :=
  if negb (audioRef w) || negb (truthy d) then w
  else
    let percent := percent_at clientX rect in
    let clamped := Math_min one (Math_max zero percent) in
    send (SetCurrentTime (mul d clamped)) w.

(** [update] of the volume bar, again the same text twice. *)
Definition volume_update (clientX : number) (rect : Rect) (w : World) : World :=
  let percent := percent_at clientX rect in
  setVolume (Math_min one (Math_max zero percent)) w.

(** [e.touches[0].clientX]; a touch is given by its [clientX]. *)
Definition first_touch (touches : list number) : outcome number :=
  match touches with
  | [] => TypeError
  | x :: _ => Done x
  end.

Definition seek_onMouseDown (c : Hooks) (clientX : number) (rect : Rect)
    (w : World) : World :=
  let w1 := seek_update (duration c) clientX rect w in
  addEventListener (SeekMouseUp (duration c))
    (addEventListener (SeekMouseMove (duration c)) w1).

Definition seek_onTouchStart (c : Hooks) (touches : list number) (rect : Rect)
    (w : World) : outcome World :=
  x <- first_touch touches ;;
  let w1 := seek_update (duration c) x rect w in
  Done (addEventListener (SeekTouchEnd (duration c))
          (addEventListener (SeekTouchMove (duration c)) w1)).

Definition volume_onMouseDown (clientX : number) (rect : Rect)
    (w : World) : World :=
  let w1 := volume_update clientX rect w in
  addEventListener VolumeMouseUp (addEventListener VolumeMouseMove w1).

Definition volume_onTouchStart (touches : list number) (rect : Rect)
    (w : World) : outcome World :=
  x <- first_touch touches ;;
  let w1 := volume_update x rect w in
  Done (addEventListener VolumeTouchEnd (addEventListener VolumeTouchMove w1)).

(** *** Listeners on [window] *)

Definition on_mousemove (clientX : number) (seek vol : Rect) (l : Listener)
    (w : World) : World :=
  match l with
  | SeekMouseMove d => seek_update d clientX seek w
  | VolumeMouseMove => volume_update clientX vol w
  | _ => w
  end.

Definition on_mouseup (l : Listener) (w : World) : World :=
  match l with
  | SeekMouseUp d =>
      removeEventListener (SeekMouseUp d)
        (removeEventListener (SeekMouseMove d) w)
  | VolumeMouseUp =>
      removeEventListener VolumeMouseUp
        (removeEventListener VolumeMouseMove w)
  | _ => w
  end.

Definition on_touchmove (touches : list number) (seek vol : Rect)
    (l : Listener) (w : World) : outcome World :=
  match l with
  | SeekTouchMove d =>
      x <- first_touch touches ;; Done (seek_update d x seek w)
  | VolumeTouchMove =>
      x <- first_touch touches ;; Done (volume_update x vol w)
  | _ => Done w
  end.

(** A [touchend] listener is registered with [once]: it removes the move
    listener and is itself dropped. *)
Definition on_touchend (l : Listener) (w : World) : World :=
  match l with
  | SeekTouchEnd d =>
      removeEventListener (SeekTouchEnd d)
        (removeEventListener (SeekTouchMove d) w)
  | VolumeTouchEnd =>
      removeEventListener VolumeTouchEnd
        (removeEventListener VolumeTouchMove w)
  | _ => w
  end.

(** *** Events *)

Inductive Event :=
| Mount
| Unmount
| ClickPlay
| TimerFires
| ClickShuffle
| ClickRepeat
| ClickNext
| ClickPrev
| Ended
| TimeUpdate (currentTime dur : number)
| LoadedMetadata (dur : number)
| SeekMouseDown (clientX : number) (rect : Rect)
| SeekTouchStart (touches : list number) (rect : Rect)
| VolumeMouseDown (clientX : number) (rect : Rect)
| VolumeTouchStart (touches : list number) (rect : Rect)
| MouseMove (clientX : number) (seek vol : Rect)
| MouseUp
| TouchMove (touches : list number) (seek vol : Rect)
| TouchEnd
| TimerElapses
| PlaySettles (fulfilled : bool).

(** The handler an event reaches. A control of the rendered tree calls
    the function of the latest render; a media event calls the listener
    the audio-sync effect registered, if one is registered.

    The 400 ms timer of [togglePlay] comes in two grains. [TimerElapses]
    is the timer alone: on the play path the call is left waiting for
    the promise of [play()], which [PlaySettles] settles later, with
    other events in between or never. [TimerFires] is the timer followed
    at once by the fulfilment of that promise. *)
Definition handle (fuel : nat) (ev : Event) (w : World) : outcome World :=
  match ev with
  | Mount => Done (mount w)
  | Unmount => Done (unmount w)
  | ClickPlay => Done (togglePlay (hooks w) w)
  | TimerFires =>
      match timers w with
      | [] => Done w
      | next :: rest =>
          w1 <- togglePlay_resume next (with_timers rest w) ;;
          Done (if PlayerState_eqb next playing
                then togglePlay_settle true w1 else w1)
      end
  | ClickShuffle => Done (toggleShuffle w)
  | ClickRepeat => Done (toggleRepeat w)
  | ClickNext => nextSong fuel (hooks w) w
  | ClickPrev => Done (prevSong w)
  | Ended =>
      match attached w with
      | None => Done w
      | Some c => onEnd fuel c w
      end
  | TimeUpdate t d =>
      match attached w with
      | None => Done w
      | Some _ => Done (updateProgress t d w)
      end
  | LoadedMetadata d =>
      match attached w with
      | None => Done w
      | Some _ => Done (setMeta d w)
      end
  | SeekMouseDown x r => Done (seek_onMouseDown (hooks w) x r w)
  | SeekTouchStart ts r => seek_onTouchStart (hooks w) ts r w
  | VolumeMouseDown x r => Done (volume_onMouseDown x r w)
  | VolumeTouchStart ts r => volume_onTouchStart ts r w
  | MouseMove x seek vol =>
      Done (fold_left (fun w' l => on_mousemove x seek vol l w') (window w) w)
  | MouseUp => Done (fold_left (fun w' l => on_mouseup l w') (window w) w)
  | TouchMove ts seek vol =>
      fold_left (fun m l => w' <- m ;; on_touchmove ts seek vol l w')
        (window w) (Done w)
  | TouchEnd => Done (fold_left (fun w' l => on_touchend l w') (window w) w)
  | TimerElapses =>
      match timers w with
      | [] => Done w
      | next :: rest => togglePlay_resume next (with_timers rest w)
      end
  | PlaySettles fulfilled => Done (togglePlay_settle fulfilled w)
  end.

(** One event: the handler, then the re-render and its effects. A mount
    has no render before it, and its effects ran in [mount]. *)
Definition step (fuel : nat) (ev : Event) (w : World) : outcome World :=
  w' <- handle fuel ev w ;;
  Done (match ev with
        | Mount => w'
        | _ => commit (hooks w) w'
        end).

Fixpoint run (fuel : nat) (evs : list Event) (w : World) : outcome World :=
  match evs with
  | [] => Done w
  | ev :: rest => w' <- step fuel ev w ;; run fuel rest w'
  end.

(** The pointer fraction an event gives the volume bar, where it gives
    one, is a number. *)
Definition fraction_is_number (ev : Event) : bool :=
  match ev with
  | VolumeMouseDown x rect => negb (is_nan (percent_at x rect))
  | VolumeTouchStart (x :: _) rect => negb (is_nan (percent_at x rect))
  | MouseMove x _ vol => negb (is_nan (percent_at x vol))
  | TouchMove (x :: _) _ vol => negb (is_nan (percent_at x vol))
  | _ => true
  end.

(** The [mousemove] and [touchmove] events of a drag; a touch move is
    given with its first touch point apart. *)
Definition mouse_move (m : number * Rect * Rect) : Event :=
  MouseMove (fst (fst m)) (snd (fst m)) (snd m).

Definition touch_move (m : number * list number * Rect * Rect) : Event :=
  TouchMove (fst (fst (fst m)) :: snd (fst (fst m))) (snd (fst m)) (snd m).

(** The worlds the widget can be in. *)
Inductive reachable : World -> Prop :=
| reachable_initial : reachable initial
| reachable_step (fuel : nat) (ev : Event) (w w' : World) :
    reachable w -> step fuel ev w = Done w' -> reachable w'.

(** The registered listeners belong to a render with the index and the
    volume the hooks hold now, and the element they are registered on is
    there. *)
Definition in_sync (w : World) : Prop :=
  forall c, attached w = Some c ->
            current c = current (hooks w) /\
            volume c = volume (hooks w) /\
            audioRef w = true.

(** A handler that leaves listeners, ref and index as they are. *)
Definition keeps (w w' : World) : Prop :=
  attached w' = attached w /\ audioRef w' = audioRef w /\
  current (hooks w') = current (hooks w).

(** A handler that neither mounts nor unmounts: it leaves the listeners
    and the ref alone, and a valid index stays valid. *)
Definition tame (w w' : World) : Prop :=
  attached w' = attached w /\
  audioRef w' = audioRef w /\
  (0 <= current (hooks w) < songs_length ->
   0 <= current (hooks w') < songs_length).

End Component.

(** ** What is rendered *)

Section Rendering.

Variable songs : list Song.
(** The digits [toString] gives the numbers that are not integers up to
    2^53; see [JS.toString]. *)
Variable other : number -> String.string.

Local Open Scope string_scope.

(** [formatTime] (lines 203-210). *)
Definition formatTime (sec : number) : String.string :=
  if negb (truthy sec) then "0:00"
  else
    let m := Math_floor (div sec sixty) in
    let s := padStart 2 "0" (toString other (Math_floor (remainder sec sixty))) in
    String.append (toString other m) (String.append ":" s).

(** The duration label under the seek bar (line 338). *)
Definition duration_label (w : World) : String.string :=
  if truthy (duration (hooks w)) then formatTime (duration (hooks w))
  else "--:--".

(** Minutes, a colon, and the seconds on two digits. *)
Definition minutes_seconds (n : Z) : String.string :=
  String.append (decimal (n / 60))
    (String.append ":"
       (String.append (if n mod 60 <? 10 then "0" else "")
          (decimal (n mod 60)))).

Local Close Scope string_scope.

(** [formatTime] prints the whole seconds [n], [n + 1], ... ([count] of
    them) as minutes and seconds. *)
Fixpoint formats_from (count : nat) (n : Z) : bool :=
  match count with
  | O => true
  | S count' =>
      String.eqb (formatTime (of_Z n)) (minutes_seconds n)
      && formats_from count' (n + 1)
  end.

(** [songs[current]], which the header and the [audio] element read
    (lines 242-243 and 485); [None] is [undefined], whose fields cannot
    be read. *)
Definition current_song (w : World) : option Song :=
  if current (hooks w) <? 0 then None
  else nth_error songs (Z.to_nat (current (hooks w))).

End Rendering.

Local Open Scope string_scope.

(** The playlist of the component. *)
Definition playlist : list Song :=
  [ mkSong "/music/Lonely.mp3" "Lonely" "Justin Bieber";
    mkSong "https://www.soundhelix.com/examples/mp3/SoundHelix-Song-8.mp3"
      "Spy vs. Spy - Chill-out Acid Squeeze Mix" "T. Schürger";
    mkSong "https://www.soundhelix.com/examples/mp3/SoundHelix-Song-1.mp3"
      "Song 1" "T. Schürger" ].

(** A playlist of one track, for the branch of [shuffle] that the shipped
    playlist never takes. *)
Definition single : list Song :=
  [ mkSong "/music/Lonely.mp3" "Lonely" "Justin Bieber" ].

Local Close Scope string_scope.

(** An oracle that draws 0, 1, 2, 0, 1, 2, ... *)
Definition round_robin (k : nat) : Z := Z.of_nat k mod 3.

(** An oracle that draws 0 every time. *)
Definition always_first (k : nat) : Z := 0.

(** Digits for the numbers [toString] does not print as plain integers:
    none. *)
Definition unprinted (x : number) : String.string := String.EmptyString.

(** ** Worlds used as examples *)

(** The widget right after mounting. *)
Definition mounted : World := mount initial.

(** The user pressed play and the 400 ms timer has not fired yet. *)
Definition pressed_play : World := togglePlay (hooks mounted) mounted.

(** After play and then pause: the user has started playback once and
    the player is paused again. *)
Definition played_then_paused : outcome World :=
  run playlist round_robin 1
    [Mount; ClickPlay; TimerFires; ClickPlay; TimerFires] initial.

(** The world the shipped widget is in after a sequence of events. *)
Definition world_after (evs : list Event) : World :=
  match run playlist round_robin 2 evs initial with
  | Done w => w
  | _ => initial
  end.

(** ** Facts about numbers *)

Lemma same_value_refl (x : number) : same_value x x = true.
Proof.
  destruct x as [s|s| |s m e]; simpl; trivial.
  - now destruct s.
  - now destruct s.
  - rewrite Pos.eqb_refl, Z.eqb_refl. now destruct s.
Qed.

(** The nested [Math.min(1, Math.max(0, p))] is the clamp of the
    specification whenever [p] is a number. *)
Lemma min_max_is_clamp (p : number) :
  is_nan p = false -> Math_min one (Math_max zero p) = spec_clamp p.
Proof.
  intros Hp.
  destruct p as [s|s| |s m e]; try discriminate.
  - now destruct s.
  - now destruct s.
  - destruct s; [reflexivity|].
    unfold spec_clamp, Math_max, Math_min, leb, SFleb.
    cbn [SFcompare zero one].
    destruct (Z.compare (-52) e); try reflexivity.
    destruct (Pos.compare_cont Eq 4503599627370496 m); reflexivity.
Qed.

Lemma clamp_in_unit (p : number) :
  is_nan p = false -> in_unit (spec_clamp p) = true.
Proof.
  intros Hp. unfold spec_clamp, in_unit.
  destruct (leb p zero) eqn:H0; [reflexivity|].
  destruct (leb one p) eqn:H1; [reflexivity|].
  destruct p as [s|s| |s m e]; try discriminate.
  - now destruct s.
  - destruct s; [discriminate|].
    unfold leb, SFleb in *. cbn [SFcompare zero one andb] in *.
    rewrite (Z.compare_antisym e (-52)) in H1.
    destruct (Z.compare e (-52)) eqn:He; cbn [CompOpp] in *;
      try reflexivity; try discriminate.
    change Eq with (CompOpp Eq) in H1 at 1.
    rewrite <- Pos.compare_cont_antisym in H1.
    destruct (Pos.compare_cont Eq m 4503599627370496);
      try reflexivity; discriminate.
Qed.

(** ** Facts about the React runtime part *)

Lemma hooks_eta (h : Hooks) :
  mkHooks (current h) (state h) (progress h) (duration h) (volume h)
    (userStarted h) (isShuffle h) (repeatMode h) = h.
Proof. now destruct h. Qed.

Lemma setState_same (w : World) : setState (state (hooks w)) w = w.
Proof. unfold setState, with_hooks. rewrite hooks_eta. now destruct w. Qed.

(** Re-rendering never changes the hook state: the only setter an effect
    calls is [setState(state)]. *)
Lemma hooks_commit (prev : Hooks) (w : World) : hooks (commit prev w) = hooks w.
Proof.
  destruct w as [h ref att tm win k cmds aw]. destruct h.
  unfold commit, track_change, audio_sync, audio_sync_cleanup. cbn.
  repeat match goal with
         | |- context [if ?b then _ else _] => destruct b; cbn
         end; reflexivity.
Qed.

(** No effect runs when neither the index nor the volume changed. *)
Lemma commit_unchanged (prev : Hooks) (w : World) :
  current prev = current (hooks w) ->
  volume prev = volume (hooks w) ->
  commit prev w = w.
Proof.
  intros Hc Hv. unfold commit.
  rewrite Hc, Hv, Z.eqb_refl, same_value_refl. reflexivity.
Qed.

Section Properties.

Variable songs : list Song.
Variable rand : nat -> Z.

Local Abbreviation n := (songs_length songs).

(** *** Initial state *)

(** C10. On mount and before any interaction the session state is: track
    index 0, state paused, progress 0, duration 0, volume the literal 0.2
    (strictly between 0 and 1), shuffle off, repeat mode off, and the
    user-started flag false. *)
Theorem initial_defaults :
  hooks (mount initial) = hooks initial /\
  current (hooks initial) = 0 /\
  state (hooks initial) = paused /\
  progress (hooks initial) = zero /\
  duration (hooks initial) = zero /\
  volume (hooks initial) = lit_0_2 /\
  div one (of_Z 5) = lit_0_2 /\
  ltb zero (volume (hooks initial)) = true /\
  ltb (volume (hooks initial)) one = true /\
  isShuffle (hooks initial) = false /\
  repeatMode (hooks initial) = Off /\
  userStarted (hooks initial) = false.
Proof. repeat split; vm_compute; reflexivity. Qed.

(** *** Play and pause *)

(** C6. A toggle request while the state is loading changes nothing: the
    whole world after the event, with its hook state, its pending timers
    and its command log, is the world before it. *)
Theorem togglePlay_loading_noop (fuel : nat) (w : World) :
  state (hooks w) = loading ->
  togglePlay (hooks w) w = w /\ step songs rand fuel ClickPlay w = Done w.
Proof.
  intros Hl.
  assert (H : togglePlay (hooks w) w = w).
  { unfold togglePlay. rewrite Hl. cbn. now rewrite orb_true_r. }
  split; [exact H|].
  unfold step, handle. rewrite H. cbn.
  now rewrite commit_unchanged.
Qed.

(** *** Next and previous *)

Lemma prev_index (i : Z) :
  0 <= i < n ->
  (if i =? 0 then n - 1 else i - 1) = (i - 1 + n) mod n.
Proof.
  intros Hi. destruct (Z.eqb_spec i 0) as [->|Hne].
  - replace (0 - 1 + n) with (n - 1) by lia.
    symmetry. apply Z.mod_small. lia.
  - replace (i - 1 + n) with (i - 1 + 1 * n) by lia.
    rewrite Z.mod_add by lia. symmetry. apply Z.mod_small. lia.
Qed.

(** C4. From a valid index [i]: with shuffle off, next leads to
    [(i + 1) mod trackCount]; previous leads to
    [(i - 1 + trackCount) mod trackCount], and does so whatever the
    shuffle flag and the repeat mode are. *)
Theorem next_prev_wrap (fuel : nat) (w : World) :
  0 <= current (hooks w) < n ->
  (isShuffle (hooks w) = false ->
   exists w', step songs rand fuel ClickNext w = Done w' /\
              current (hooks w') = (current (hooks w) + 1) mod n) /\
  (exists w', step songs rand fuel ClickPrev w = Done w' /\
              current (hooks w') = (current (hooks w) - 1 + n) mod n) /\
  (forall s r,
     let w0 := setRepeatMode (fun _ => r) (setIsShuffle (fun _ => s) w) in
     exists w', step songs rand fuel ClickPrev w0 = Done w' /\
                current (hooks w') = (current (hooks w) - 1 + n) mod n /\
                isShuffle (hooks w') = s /\ repeatMode (hooks w') = r).
Proof.
  intros Hi. repeat split.
  - intros Hs. unfold step, handle, nextSong. rewrite Hs. cbn [bind].
    eexists; split; [reflexivity|].
    rewrite hooks_commit. cbn.
    apply Z.rem_mod_nonneg; lia.
  - unfold step, handle. cbn [bind].
    eexists; split; [reflexivity|].
    rewrite hooks_commit. cbn. now apply prev_index.
  - intros s r w0. unfold step, handle. cbn [bind].
    eexists; split; [reflexivity|].
    rewrite hooks_commit. cbn. repeat split. now apply prev_index.
Qed.

(** *** Shuffle *)

(** What the re-draw loop returns: the first draw, from the k-th on, that
    differs from [cur]; it is still looping exactly when every draw so
    far was [cur]. *)
Lemma redraw_spec (fuel : nat) (cur : Z) :
  forall k,
    match redraw rand fuel cur k with
    | Some (next, k') =>
        exists j, (j < fuel)%nat /\ next = rand (k + j)%nat /\
                  next <> cur /\ k' = S (k + j) /\
                  forall i, (i < j)%nat -> rand (k + i)%nat = cur
    | None => forall j, (j < fuel)%nat -> rand (k + j)%nat = cur
    end.
Proof.
  induction fuel as [|fuel IH]; intros k; cbn [redraw].
  - intros j Hj. lia.
  - destruct (Z.eqb_spec (rand k) cur) as [Heq|Hne].
    + specialize (IH (S k)).
      destruct (redraw rand fuel cur (S k)) as [[next k']|].
      * destruct IH as (j & Hj & Hn & Hd & Hk & Hall).
        exists (S j). rewrite Nat.add_succ_r. cbn [Nat.add] in *.
        repeat split; try assumption; try lia.
        intros [|i] Hi; [now rewrite Nat.add_0_r|].
        rewrite Nat.add_succ_r. apply Hall. lia.
      * intros [|j] Hj; [now rewrite Nat.add_0_r|].
        rewrite Nat.add_succ_r. apply (IH j). lia.
    + exists 0%nat. rewrite Nat.add_0_r.
      repeat split; try assumption; lia.
Qed.

Lemma shuffle_single (fuel : nat) (c : Hooks) (w : World) :
  n <= 1 -> shuffle songs rand fuel c w = Done w.
Proof.
  intros Hn. unfold shuffle.
  destruct (Z.leb_spec n 1); [reflexivity|lia].
Qed.

Lemma shuffle_result (fuel : nat) (c : Hooks) (w w' : World) :
  1 < n ->
  shuffle songs rand fuel c w = Done w' ->
  exists j, (j < fuel)%nat /\
            w' = setCurrent (fun _ => rand (draws w + j)%nat)
                   (with_draws (S (draws w + j)) w) /\
            rand (draws w + j)%nat <> current c /\
            forall i, (i < j)%nat -> rand (draws w + i)%nat = current c.
Proof.
  intros Hn. unfold shuffle.
  destruct (Z.leb_spec n 1); [lia|].
  pose proof (redraw_spec fuel (current c) (draws w)) as Hr.
  destruct (redraw rand fuel (current c) (draws w)) as [[next k']|];
    [|discriminate].
  destruct Hr as (j & Hj & Hnext & Hd & Hk & Hall).
  intros [= <-]. exists j. subst next k'. repeat split; assumption.
Qed.

Lemma shuffle_returns (fuel : nat) (c : Hooks) (w : World) (j : nat) :
  (j < fuel)%nat ->
  rand (draws w + j)%nat <> current c ->
  exists w', shuffle songs rand fuel c w = Done w'.
Proof.
  intros Hj Hd. unfold shuffle.
  destruct (n <=? 1); [now eexists|].
  pose proof (redraw_spec fuel (current c) (draws w)) as Hr.
  destruct (redraw rand fuel (current c) (draws w)) as [[next k']|].
  - now eexists.
  - elim Hd. now apply Hr.
Qed.

(** C5. The shuffle selector, called with the index of the render it
    belongs to. With one track or none it returns at once and changes
    nothing. With more tracks, and draws that lie in [0, trackCount): what
    it sets is the first draw that differs from the current index, so an
    index in range and different from the current one; and it does return
    as soon as such a draw comes up. *)
Theorem shuffle_picks_other (fuel : nat) (c : Hooks) (w : World) :
  current c = current (hooks w) ->
  (n <= 1 -> shuffle songs rand fuel c w = Done w) /\
  (1 < n ->
   (forall k, 0 <= rand k < n) ->
   (forall w',
      shuffle songs rand fuel c w = Done w' ->
      current (hooks w') <> current (hooks w) /\
      0 <= current (hooks w') < n /\
      exists j,
        current (hooks w') = rand (draws w + j)%nat /\
        draws w' = S (draws w + j) /\
        forall i, (i < j)%nat -> rand (draws w + i)%nat = current (hooks w)) /\
   (forall j,
      (j < fuel)%nat ->
      rand (draws w + j)%nat <> current (hooks w) ->
      exists w', shuffle songs rand fuel c w = Done w')).
Proof.
  intros Hc. split; [apply shuffle_single|].
  intros Hn Hrange. split.
  - intros w' Hw'.
    destruct (shuffle_result fuel c w w' Hn Hw') as (j & Hj & -> & Hd & Hall).
    rewrite <- Hc. cbn. repeat split; try apply Hrange; try assumption.
    exists j. repeat split. assumption.
  - intros j Hj Hd. apply (shuffle_returns fuel c w j Hj). now rewrite Hc.
Qed.

(** *** End of track *)

Lemma step_ended (fuel : nat) (w : World) (c : Hooks) :
  attached w = Some c ->
  step songs rand fuel Ended w =
  (w' <- onEnd songs rand fuel c w ;; Done (commit (hooks w) w')).
Proof. intros Ha. unfold step, handle. now rewrite Ha. Qed.

(** C1. The track ends while the listener of a render with values [c] is
    registered on the element, at a valid index [i]. The outcome follows
    the repeat mode and the shuffle flag of [c], in this order:
    (a) repeat one: play is sent again, the hook state (index, player
        state) is unchanged;
    (b) else shuffle on (more than one track, draws in range): the new
        index is in range and differs from [i], and the handler returns
        once a differing index is drawn;
    (c) else repeat all: the new index is [(i + 1) mod trackCount];
    (d) else, [i] not the last index: the new index is [i + 1];
    (e) else: the index stays [i], the state becomes paused and nothing
        is sent to the element. *)
Theorem onEnd_priority (fuel : nat) (w : World) (c : Hooks) :
  attached w = Some c ->
  audioRef w = true ->
  current c = current (hooks w) ->
  0 <= current (hooks w) < n ->
  let i := current (hooks w) in
  (repeatMode c = One ->
   exists w', step songs rand fuel Ended w = Done w' /\
              hooks w' = hooks w /\ log w' = log w ++ [Play]) /\
  (repeatMode c <> One -> isShuffle c = true ->
   1 < n -> (forall k, 0 <= rand k < n) ->
   (forall w', step songs rand fuel Ended w = Done w' ->
               current (hooks w') <> i /\ 0 <= current (hooks w') < n) /\
   (forall j, (j < fuel)%nat -> rand (draws w + j)%nat <> i ->
              exists w', step songs rand fuel Ended w = Done w')) /\
  (repeatMode c = All -> isShuffle c = false ->
   exists w', step songs rand fuel Ended w = Done w' /\
              current (hooks w') = (i + 1) mod n) /\
  (repeatMode c = Off -> isShuffle c = false -> i < n - 1 ->
   exists w', step songs rand fuel Ended w = Done w' /\
              current (hooks w') = i + 1) /\
  (repeatMode c = Off -> isShuffle c = false -> i = n - 1 ->
   exists w', step songs rand fuel Ended w = Done w' /\
              current (hooks w') = i /\ state (hooks w') = paused /\
              log w' = log w).
Proof.
  intros Ha Href Hc Hi i.
  rewrite (step_ended fuel w c Ha). unfold onEnd.
  repeat apply conj.
  - intros ->. cbn [RepeatMode_eqb]. rewrite Href. cbn [bind].
    eexists; split; [reflexivity|].
    rewrite commit_unchanged by reflexivity. now split.
  - intros Hr Hs Hn Hrange.
    assert (RepeatMode_eqb (repeatMode c) One = false) as ->
      by (revert Hr; destruct (repeatMode c); cbn; congruence).
    rewrite Hs. split.
    + intros w'.
      destruct (shuffle songs rand fuel c w) as [w1| |] eqn:Hsh;
        cbn [bind]; try discriminate.
      intros [= <-]. rewrite hooks_commit.
      destruct (shuffle_result fuel c w w1 Hn Hsh) as (j & _ & -> & Hd & _).
      cbn. split; [unfold i; congruence|apply Hrange].
    + intros j Hj Hd.
      destruct (shuffle_returns fuel c w j Hj) as [w1 ->];
        [unfold i in Hd; congruence|].
      cbn [bind]. now eexists.
  - intros Hr Hs. unfold nextSong. rewrite Hr, Hs. cbn [RepeatMode_eqb].
    cbn [bind]. eexists; split; [reflexivity|].
    rewrite hooks_commit. cbn. apply Z.rem_mod_nonneg; lia.
  - intros Hr Hs Hlt. unfold nextSong. rewrite Hr, Hs, Hc. cbn [RepeatMode_eqb].
    destruct (Z.ltb_spec (current (hooks w)) (n - 1)); [|unfold i in Hlt; lia].
    cbn [bind]. eexists; split; [reflexivity|].
    rewrite hooks_commit. cbn. apply Z.rem_small. lia.
  - intros Hr Hs Hlast. rewrite Hr, Hs, Hc. cbn [RepeatMode_eqb].
    destruct (Z.ltb_spec (current (hooks w)) (n - 1)); [unfold i in Hlast; lia|].
    cbn [bind]. eexists; split; [reflexivity|].
    rewrite commit_unchanged by reflexivity. now repeat split.
Qed.

(** *** Seek bar and volume bar *)

(** C7. Pointer-down at a fraction [p] that is a number (mouse, or touch
    with first touch point [x]). On the volume bar the volume becomes
    [clamp(p, 0, 1)]. On the seek bar, with the element present and a
    duration that is known and not zero, the one command sent is
    [currentTime = duration * clamp(p, 0, 1)]; with a duration that is
    zero or unknown nothing is sent. The hook state is untouched by a
    seek. *)
Theorem pointer_down_applies_clamp (fuel : nat) (w : World)
    (x : number) (more : list number) (rect : Rect) :
  let p := percent_at x rect in
  let d := duration (hooks w) in
  is_nan p = false ->
  (exists w', step songs rand fuel (VolumeMouseDown x rect) w = Done w' /\
              volume (hooks w') = spec_clamp p) /\
  (exists w', step songs rand fuel (VolumeTouchStart (x :: more) rect) w
              = Done w' /\
              volume (hooks w') = spec_clamp p) /\
  (audioRef w = true -> truthy d = true ->
   (exists w', step songs rand fuel (SeekMouseDown x rect) w = Done w' /\
               hooks w' = hooks w /\
               log w' = log w ++ [SetCurrentTime (mul d (spec_clamp p))]) /\
   (exists w', step songs rand fuel (SeekTouchStart (x :: more) rect) w
               = Done w' /\
               hooks w' = hooks w /\
               log w' = log w ++ [SetCurrentTime (mul d (spec_clamp p))])) /\
  (truthy d = false ->
   (exists w', step songs rand fuel (SeekMouseDown x rect) w = Done w' /\
               hooks w' = hooks w /\ log w' = log w) /\
   (exists w', step songs rand fuel (SeekTouchStart (x :: more) rect) w
               = Done w' /\
               hooks w' = hooks w /\ log w' = log w)).
Proof.
  intros p d Hp. unfold step, handle.
  repeat apply conj.
  - cbn [bind]. eexists; split; [reflexivity|].
    rewrite hooks_commit. cbn. now apply min_max_is_clamp.
  - cbn. eexists; split; [reflexivity|].
    rewrite hooks_commit. cbn. now apply min_max_is_clamp.
  - intros Href Hd.
    assert (Hu : seek_update d x rect w
                 = send (SetCurrentTime (mul d (spec_clamp p))) w).
    { unfold seek_update. rewrite Href, Hd. cbn [negb orb].
      now rewrite min_max_is_clamp. }
    split; cbn; unfold seek_onMouseDown; fold d; rewrite Hu;
      (eexists; split; [reflexivity|]);
      rewrite commit_unchanged by reflexivity; now split.
  - intros Hd.
    assert (Hu : seek_update d x rect w = w).
    { unfold seek_update. rewrite Hd. cbn [negb]. now rewrite orb_true_r. }
    split; cbn; unfold seek_onMouseDown; fold d; rewrite Hu;
      (eexists; split; [reflexivity|]);
      rewrite commit_unchanged by reflexivity; now split.
Qed.

(** A volume that comes out of a drag at a fraction that is a number lies
    in the unit interval. *)
Lemma volume_update_in_unit (x : number) (rect : Rect) (w : World) :
  is_nan (percent_at x rect) = false ->
  in_unit (volume (hooks (volume_update x rect w))) = true.
Proof.
  intros Hp. cbn. rewrite min_max_is_clamp by assumption.
  now apply clamp_in_unit.
Qed.

(** *** Track change *)

(** What a re-render does when the index changed and the element is
    there: the volume is pushed, then load and play are sent exactly when
    the user has started playback before; the hook state, the player
    state included, is what it was. *)
Lemma index_change_effects (prev : Hooks) (w : World) :
  audioRef w = true ->
  current prev <> current (hooks w) ->
  hooks (commit prev w) = hooks w /\
  log (commit prev w)
  = log w ++ SetVolume (volume (hooks w))
          :: (if userStarted (hooks w) then [Load; Play] else []).
Proof.
  intros Href Hc. split; [apply hooks_commit|].
  unfold commit.
  destruct (Z.eqb_spec (current prev) (current (hooks w))) as [E|_];
    [contradiction|].
  cbn [negb orb].
  unfold track_change, audio_sync, audio_sync_cleanup.
  destruct w as [h ref att tm win k cmds aw]. cbn in Href. subst ref. cbn.
  destruct (userStarted h); cbn; [|reflexivity].
  now rewrite <- !app_assoc.
Qed.

(** *** The registered listeners *)

(** Toggling shuffle or repeat re-renders, but the dependencies of the
    audio-sync effect are the index and the volume: the registered
    listeners stay those of the earlier render. *)
Lemma toggles_keep_listeners (fuel : nat) (w : World) :
  (exists w', step songs rand fuel ClickShuffle w = Done w' /\
              attached w' = attached w /\
              isShuffle (hooks w') = negb (isShuffle (hooks w))) /\
  (exists w', step songs rand fuel ClickRepeat w = Done w' /\
              attached w' = attached w).
Proof.
  split; unfold step, handle; cbn [bind];
    (eexists; split; [reflexivity|]);
    rewrite commit_unchanged by reflexivity; now repeat split.
Qed.

(** *** An absent element *)

(** With the ref empty, the guarded sites do nothing. *)
Lemma guarded_sites_silent (fuel : nat) (c : Hooks) (w : World)
    (d x : number) (rect : Rect) :
  audioRef w = false ->
  audio_sync w = w /\
  track_change w = w /\
  togglePlay c w = w /\
  seek_update d x rect w = w /\
  (repeatMode c = One -> onEnd songs rand fuel c w = Done w).
Proof.
  intros Href.
  unfold audio_sync, track_change, togglePlay, seek_update, onEnd.
  rewrite Href. cbn [negb orb].
  repeat split.
  - now destruct (userStarted (hooks w)).
  - now intros ->.
Qed.

(** *** What holds in every reachable world *)

Lemma same_value_eq (x y : number) : same_value x y = true -> x = y.
Proof.
  destruct x as [a|a| |a m e], y as [b|b| |b m' e']; cbn;
    try discriminate; try reflexivity.
  - intros H. now rewrite (Bool.eqb_prop _ _ H).
  - intros H. now rewrite (Bool.eqb_prop _ _ H).
  - intros H. apply andb_prop in H as [H He]. apply andb_prop in H as [Hs Hm].
    apply Bool.eqb_prop in Hs. apply Pos.eqb_eq in Hm. apply Z.eqb_eq in He.
    now subst.
Qed.

(** After a re-render either nothing ran, or the audio-sync effect ran
    and the listeners are those of the new render. *)
Lemma commit_cases (prev : Hooks) (w : World) :
  (commit prev w = w /\
   current prev = current (hooks w) /\ volume prev = volume (hooks w)) \/
  (audioRef (commit prev w) = audioRef w /\
   attached (commit prev w) = if audioRef w then Some (hooks w) else None).
Proof.
  unfold commit.
  destruct (Z.eqb_spec (current prev) (current (hooks w))) as [Hc|Hc];
    destruct (same_value (volume prev) (volume (hooks w))) eqn:Hv;
    cbn [negb orb].
  - left. repeat split; [assumption|now apply same_value_eq].
  - right. unfold audio_sync, audio_sync_cleanup.
    now destruct w as [h [] att tm win k cmds aw].
  - right. unfold track_change, audio_sync, audio_sync_cleanup.
    destruct w as [h [] att tm win k cmds aw]; cbn;
      now destruct (userStarted h).
  - right. unfold track_change, audio_sync, audio_sync_cleanup.
    destruct w as [h [] att tm win k cmds aw]; cbn;
      now destruct (userStarted h).
Qed.

Lemma keeps_refl (w : World) : keeps w w.
Proof. now repeat split. Qed.

Lemma keeps_trans (w1 w2 w3 : World) : keeps w1 w2 -> keeps w2 w3 -> keeps w1 w3.
Proof. unfold keeps. intuition congruence. Qed.

Lemma keeps_tame (w w' : World) : keeps w w' -> tame songs w w'.
Proof. unfold keeps, tame. intros (Ha & Hr & Hc). rewrite Hc. auto. Qed.

Lemma seek_update_keeps (d x : number) (rect : Rect) (w : World) :
  keeps w (seek_update d x rect w).
Proof.
  unfold seek_update.
  destruct (negb (audioRef w) || negb (truthy d)); now repeat split.
Qed.

Lemma volume_update_keeps (x : number) (rect : Rect) (w : World) :
  keeps w (volume_update x rect w).
Proof. now repeat split. Qed.

Lemma fold_keeps (f : World -> Listener -> World) :
  (forall w l, keeps w (f w l)) ->
  forall ls w, keeps w (fold_left f ls w).
Proof.
  intros Hf ls. induction ls as [|l ls IH]; intros w; cbn [fold_left].
  - apply keeps_refl.
  - eapply keeps_trans; [apply Hf|apply IH].
Qed.

Lemma fold_touchmove_keeps (ts : list number) (seek vol : Rect) :
  forall ls (m : outcome World) w w',
    (forall w0, m = Done w0 -> keeps w w0) ->
    fold_left (fun m l => w' <- m ;; on_touchmove ts seek vol l w') ls m
    = Done w' ->
    keeps w w'.
Proof.
  induction ls as [|l ls IH]; intros m w w' Hm; cbn [fold_left].
  - intros H. now apply Hm.
  - apply IH. intros w0.
    destruct m as [w1| |]; cbn [bind]; try discriminate.
    specialize (Hm w1 eq_refl).
    destruct l; cbn [on_touchmove]; try (intros [= <-]; assumption);
      destruct ts as [|x ts']; cbn; try discriminate; intros [= <-];
      (eapply keeps_trans; [exact Hm|]);
      [apply seek_update_keeps|apply volume_update_keeps].
Qed.

Lemma shuffle_tame (fuel : nat) (c : Hooks) (w w' : World) :
  (forall k, 0 <= rand k < n) ->
  shuffle songs rand fuel c w = Done w' -> tame songs w w'.
Proof.
  intros Hrange Hsh.
  destruct (Z.leb_spec n 1) as [Hn|Hn].
  - rewrite shuffle_single in Hsh by assumption.
    injection Hsh as <-. apply keeps_tame, keeps_refl.
  - destruct (shuffle_result fuel c w w' Hn Hsh) as (j & _ & -> & _).
    repeat split; apply Hrange.
Qed.

Lemma nextSong_tame (fuel : nat) (c : Hooks) (w w' : World) :
  (forall k, 0 <= rand k < n) ->
  nextSong songs rand fuel c w = Done w' -> tame songs w w'.
Proof.
  intros Hrange. unfold nextSong. destruct (isShuffle c).
  - now apply shuffle_tame.
  - intros [= <-]. repeat split; cbn.
    + apply Z.rem_nonneg; lia.
    + apply Z.rem_bound_pos; lia.
Qed.

Lemma prevSong_tame (w : World) : tame songs w (prevSong songs w).
Proof.
  repeat split; cbn; destruct (Z.eqb_spec (current (hooks w)) 0); lia.
Qed.

Lemma onEnd_tame (fuel : nat) (c : Hooks) (w w' : World) :
  (forall k, 0 <= rand k < n) ->
  onEnd songs rand fuel c w = Done w' -> tame songs w w'.
Proof.
  intros Hrange. unfold onEnd.
  destruct (RepeatMode_eqb (repeatMode c) One).
  { intros [= <-]. apply keeps_tame. now destruct (audioRef w). }
  destruct (isShuffle c) eqn:Hs; [now apply shuffle_tame|].
  destruct (RepeatMode_eqb (repeatMode c) All); [now apply nextSong_tame|].
  destruct (current c <? n - 1); [now apply nextSong_tame|].
  intros [= <-]. now apply keeps_tame.
Qed.

(** Every handler but mounting and unmounting is tame. *)
Lemma handle_tame (fuel : nat) (ev : Event) (w w' : World) :
  (forall k, 0 <= rand k < n) ->
  ev <> Mount -> ev <> Unmount ->
  handle songs rand fuel ev w = Done w' -> tame songs w w'.
Proof.
  intros Hrange Hm Hu.
  destruct ev; try congruence; cbn [handle].
  - (* ClickPlay *)
    intros [= <-]. apply keeps_tame. unfold togglePlay.
    destruct (negb (audioRef w) || PlayerState_eqb (state (hooks w)) loading);
      now repeat split.
  - (* TimerFires *)
    destruct (timers w) as [|next rest].
    + intros [= <-]. apply keeps_tame, keeps_refl.
    + unfold togglePlay_resume, togglePlay_settle, command.
      cbn [audioRef with_timers].
      destruct (PlayerState_eqb next playing), (audioRef w) eqn:Href;
        cbn [bind]; try discriminate;
        intros [= <-]; apply keeps_tame; now repeat split.
  - intros [= <-]. now apply keeps_tame.
  - intros [= <-]. now apply keeps_tame.
  - now apply nextSong_tame.
  - intros [= <-]. apply prevSong_tame.
  - (* Ended *)
    destruct (attached w) as [c|].
    + now apply onEnd_tame.
    + intros [= <-]. apply keeps_tame, keeps_refl.
  - destruct (attached w); intros [= <-]; now apply keeps_tame.
  - destruct (attached w); intros [= <-]; now apply keeps_tame.
  - (* SeekMouseDown *)
    intros [= <-]. apply keeps_tame. unfold seek_onMouseDown.
    eapply keeps_trans; [apply seek_update_keeps|now repeat split].
  - unfold seek_onTouchStart. destruct touches as [|x ts]; cbn [first_touch bind];
      [discriminate|].
    intros [= <-]. apply keeps_tame.
    eapply keeps_trans; [apply seek_update_keeps|now repeat split].
  - intros [= <-]. now apply keeps_tame.
  - unfold volume_onTouchStart.
    destruct touches as [|x ts]; cbn [first_touch bind]; [discriminate|].
    intros [= <-]. now apply keeps_tame.
  - (* MouseMove *)
    intros [= <-]. apply keeps_tame, fold_keeps.
    intros w0 []; cbn [on_mousemove]; try apply keeps_refl;
      [apply seek_update_keeps|apply volume_update_keeps].
  - intros [= <-]. apply keeps_tame, fold_keeps.
    intros w0 []; cbn [on_mouseup]; now repeat split.
  - (* TouchMove *)
    intros H. apply keeps_tame.
    eapply fold_touchmove_keeps; [|exact H].
    intros w0 [= <-]. apply keeps_refl.
  - intros [= <-]. apply keeps_tame, fold_keeps.
    intros w0 []; cbn [on_touchend]; now repeat split.
  - (* TimerElapses *)
    destruct (timers w) as [|next rest].
    + intros [= <-]. apply keeps_tame, keeps_refl.
    + unfold togglePlay_resume, command. cbn [audioRef with_timers].
      destruct (PlayerState_eqb next playing), (audioRef w) eqn:Href;
        cbn [bind]; try discriminate;
        intros [= <-]; apply keeps_tame; now repeat split.
  - (* PlaySettles *)
    intros [= <-]. apply keeps_tame. unfold togglePlay_settle.
    destruct (awaiting w), fulfilled; now repeat split.
Qed.

(** An event is a mount, or a handler followed by a re-render. *)
Lemma step_cases (fuel : nat) (ev : Event) (w w' : World) :
  step songs rand fuel ev w = Done w' ->
  (ev = Mount /\ w' = mount w) \/
  (ev <> Mount /\
   exists w1, handle songs rand fuel ev w = Done w1 /\
              w' = commit (hooks w) w1).
Proof.
  unfold step.
  destruct (handle songs rand fuel ev w) as [w1| |] eqn:Hh;
    cbn [bind]; try discriminate.
  destruct ev; intros [= <-];
    try (right; split; [discriminate|exists w1; split; reflexivity]).
  left. cbn in Hh. injection Hh as <-. now split.
Qed.

Lemma hooks_mount_initial (w : World) : hooks (mount w) = initial_hooks.
Proof. reflexivity. Qed.

Lemma attached_mount (w : World) : attached (mount w) = Some initial_hooks.
Proof. reflexivity. Qed.

(** One event keeps the listeners in line with the hooks and the index
    within the playlist. *)
Lemma step_preserves (fuel : nat) (ev : Event) (w w' : World) :
  (forall k, 0 <= rand k < n) ->
  step songs rand fuel ev w = Done w' ->
  in_sync w /\ 0 <= current (hooks w) < n ->
  in_sync w' /\ 0 <= current (hooks w') < n.
Proof.
  intros Hrange Hstep [Hsync Hvalid].
  destruct (step_cases fuel ev w w' Hstep)
    as [[-> ->]|(Hne & w1 & Hh & ->)].
  - (* Mount *)
    split.
    + intros c. rewrite attached_mount. intros [= <-]. now repeat split.
    + rewrite hooks_mount_initial. cbn. lia.
  - rewrite hooks_commit.
    assert (Hw1 : (ev = Unmount /\ w1 = unmount w) \/ tame songs w w1).
    { destruct ev; try congruence;
        try (right;
             match type of Hh with
             | handle _ _ _ ?e _ = _ =>
                 apply (handle_tame fuel e w w1 Hrange);
                 [discriminate|discriminate|exact Hh]
             end).
      left. cbn in Hh. now injection Hh as <-. }
    destruct Hw1 as [[-> ->]|(Ha & Hr & Hv)].
    + (* Unmount *)
      rewrite commit_unchanged by reflexivity.
      split; [|assumption]. intros c. cbn. discriminate.
    + split; [|apply Hv; assumption].
      destruct (commit_cases (hooks w) w1) as [(-> & Hc & Hvol)|(Hr' & Ha')].
      * intros c Hatt. rewrite Ha in Hatt.
        destruct (Hsync c Hatt) as (H1 & H2 & H3).
        rewrite Hr. repeat split; congruence.
      * intros c. rewrite Ha', Hr', hooks_commit.
        destruct (audioRef w1); [|discriminate].
        intros [= <-]. repeat split; reflexivity.
Qed.

(** On a playlist that is not empty and with draws in range: in every
    reachable world the index is valid, and the registered listeners are
    those of a render with the current index and volume. *)
Lemma reachable_invariant (w : World) :
  0 < n ->
  (forall k, 0 <= rand k < n) ->
  reachable songs rand w ->
  in_sync w /\ 0 <= current (hooks w) < n.
Proof.
  intros Hn Hrange Hreach. induction Hreach as [|fuel ev w w' _ IH Hstep].
  - split; [intros c; discriminate|cbn; lia].
  - apply (step_preserves fuel ev w w'); assumption.
Qed.


End Properties.

(** ** Scenarios on the shipped playlist *)


(** C2. Listeners are re-registered on a change of the index or of the
    volume only, so the end-of-track handler can decide on a repeat mode
    and a shuffle flag that are no longer current. Here the user turns
    repeat to "one" on the first track, and the track ends: the handler
    still sees "off" and moves on to the second track, and play is not
    sent. Likewise with shuffle turned on at the last track: the handler
    still sees shuffle off and pauses on the last track. *)
Theorem ended_uses_stale_flags :
  (exists w w',
     run playlist round_robin 1 [Mount; ClickRepeat] initial = Done w /\
     repeatMode (hooks w) = One /\
     current (hooks w) = 0 /\
     option_map repeatMode (attached w) = Some Off /\
     step playlist round_robin 1 Ended w = Done w' /\
     current (hooks w') = 1 /\
     ~ In Play (log w')) /\
  (exists w w',
     run playlist round_robin 1 [Mount; ClickPrev; ClickShuffle] initial
     = Done w /\
     isShuffle (hooks w) = true /\
     current (hooks w) = 2 /\
     option_map isShuffle (attached w) = Some false /\
     step playlist round_robin 1 Ended w = Done w' /\
     current (hooks w') = 2 /\
     state (hooks w') = paused).
Proof.
  split; do 2 eexists; repeat split; try (vm_compute; reflexivity).
  vm_compute. intros [H|[H|[]]]; discriminate.
Qed.

(** C3. A track change after the first user gesture reloads and plays,
    but the player state is not brought in line: the effect ends with
    [setState(state)], which sets the value the state already has. Here
    the user played, paused, and then pressed next: load and play are
    sent and the state is still paused. Before any gesture, next sends
    neither load nor play. *)
Theorem track_change_leaves_state :
  (exists w w',
     played_then_paused = Done w /\
     userStarted (hooks w) = true /\
     state (hooks w) = paused /\
     step playlist round_robin 1 ClickNext w = Done w' /\
     current (hooks w') = 1 /\
     log w' = log w ++ [SetVolume lit_0_2; Load; Play] /\
     state (hooks w') = paused) /\
  (exists w',
     step playlist round_robin 1 ClickNext mounted = Done w' /\
     current (hooks w') = 1 /\
     log w' = log mounted ++ [SetVolume lit_0_2]).
Proof.
  split; [do 2 eexists|eexists];
    repeat apply conj; vm_compute; reflexivity.
Qed.

(** C9. [togglePlay] checks the ref before its 400 ms wait and not after
    it. When the component unmounts during the wait, the deferred
    [audioRef.current.play()] (or [pause()]) reads a property of null. *)
Theorem togglePlay_resume_unguarded :
  run playlist round_robin 1 [Mount; ClickPlay; Unmount; TimerFires] initial
  = TypeError /\
  run playlist round_robin 1
    [Mount; ClickPlay; TimerFires; ClickPlay; Unmount; TimerFires] initial
  = TypeError.
Proof. split; reflexivity. Qed.

(** *** The theorems at concrete inputs *)


Lemma round_robin_range (k : nat) : 0 <= round_robin k < songs_length playlist.
Proof. unfold round_robin. apply Z.mod_pos_bound. reflexivity. Qed.

(** [togglePlay_loading_noop] in the world where play was just pressed. *)
Lemma togglePlay_loading_noop_witness :
  state (hooks pressed_play) = loading /\
  step playlist round_robin 1 ClickPlay pressed_play = Done pressed_play.
Proof.
  split; [reflexivity|].
  apply (togglePlay_loading_noop playlist round_robin 1 pressed_play).
  reflexivity.
Defined.

(** [next_prev_wrap] on the first track of the shipped playlist. *)
Lemma next_prev_wrap_witness :
  0 <= current (hooks mounted) < songs_length playlist /\
  (exists w', step playlist round_robin 1 ClickNext mounted = Done w' /\
              current (hooks w') = 1) /\
  (exists w', step playlist round_robin 1 ClickPrev mounted = Done w' /\
              current (hooks w') = 2).
Proof.
  assert (H : 0 <= current (hooks mounted) < songs_length playlist)
    by (vm_compute; split; [discriminate|reflexivity]).
  destruct (next_prev_wrap playlist round_robin 1 mounted H) as (Hn & Hp & _).
  split; [exact H|]. split; [exact (Hn eq_refl)|exact Hp].
Defined.

(** [shuffle_picks_other] on a playlist of one track and on the shipped
    one, where the first draw is the current index and the second is not. *)
Lemma shuffle_picks_other_witness :
  (songs_length single <= 1 /\
   shuffle single round_robin 2 (hooks mounted) mounted = Done mounted) /\
  (1 < songs_length playlist /\
   exists w', shuffle playlist round_robin 2 (hooks mounted) mounted = Done w' /\
              current (hooks w') <> current (hooks mounted) /\
              0 <= current (hooks w') < songs_length playlist).
Proof.
  assert (H1 : songs_length single <= 1) by (vm_compute; discriminate).
  assert (H3 : 1 < songs_length playlist) by reflexivity.
  split.
  - split; [exact H1|].
    exact (proj1 (shuffle_picks_other single round_robin 2
                    (hooks mounted) mounted eq_refl) H1).
  - split; [exact H3|].
    destruct (proj2 (shuffle_picks_other playlist round_robin 2
                       (hooks mounted) mounted eq_refl) H3 round_robin_range)
      as [Hres Hret].
    destruct (Hret 1%nat) as [w' Hw'].
    + repeat constructor.
    + vm_compute. discriminate.
    + exists w'. split; [exact Hw'|].
      destruct (Hres w' Hw') as (Hd & Hr & _). split; assumption.
Defined.

(** [onEnd_priority] on the shipped playlist, one world per branch:
    repeat off on the first track, repeat one, shuffle on, repeat all on
    the last track, and repeat off on the last track. In each the
    listeners were registered by the latest render. *)
Lemma onEnd_priority_witness :
  (let w := mounted in
   attached w = Some (hooks w) /\ audioRef w = true /\
   0 <= current (hooks w) < songs_length playlist /\
   exists w', step playlist round_robin 2 Ended w = Done w' /\
              current (hooks w') = 1) /\
  (let w := world_after [Mount; ClickRepeat; ClickNext] in
   attached w = Some (hooks w) /\ repeatMode (hooks w) = One /\
   exists w', step playlist round_robin 2 Ended w = Done w' /\
              hooks w' = hooks w /\ log w' = log w ++ [Play]) /\
  (let w := world_after [Mount; ClickShuffle; ClickNext] in
   attached w = Some (hooks w) /\ isShuffle (hooks w) = true /\
   exists w', step playlist round_robin 2 Ended w = Done w' /\
              current (hooks w') <> current (hooks w) /\
              0 <= current (hooks w') < songs_length playlist) /\
  (let w := world_after [Mount; ClickRepeat; ClickRepeat; ClickPrev] in
   attached w = Some (hooks w) /\ repeatMode (hooks w) = All /\
   current (hooks w) = 2 /\
   exists w', step playlist round_robin 2 Ended w = Done w' /\
              current (hooks w') = 0) /\
  (let w := world_after [Mount; ClickPrev] in
   attached w = Some (hooks w) /\
   current (hooks w) = songs_length playlist - 1 /\
   exists w', step playlist round_robin 2 Ended w = Done w' /\
              current (hooks w') = 2 /\ state (hooks w') = paused /\
              log w' = log w).
Proof.
  repeat apply conj; cbv zeta; try reflexivity;
    try (vm_compute; discriminate).
  - exact (proj1 (proj2 (proj2 (proj2
      (onEnd_priority playlist round_robin 2 mounted (hooks mounted)
         eq_refl eq_refl eq_refl
         (conj (fun H => Z.le_refl 0 H) eq_refl)))))
      eq_refl eq_refl eq_refl).
  - exact (proj1
      (onEnd_priority playlist round_robin 2
         (world_after [Mount; ClickRepeat; ClickNext])
         (hooks (world_after [Mount; ClickRepeat; ClickNext]))
         eq_refl eq_refl eq_refl
         (conj (fun H => Z.lt_le_incl 0 1 eq_refl H) eq_refl))
      eq_refl).
  - pose (w := world_after [Mount; ClickShuffle; ClickNext]).
    assert (Hne : repeatMode (hooks w) <> One) by (vm_compute; discriminate).
    destruct (proj1 (proj2
      (onEnd_priority playlist round_robin 2 w (hooks w)
         eq_refl eq_refl eq_refl
         (conj (fun H => Z.lt_le_incl 0 1 eq_refl H) eq_refl)))
      Hne eq_refl eq_refl round_robin_range)
      as [Hres Hret].
    destruct (Hret 0%nat) as [w' Hw'].
    + repeat constructor.
    + vm_compute. discriminate.
    + exists w'. split; [exact Hw'|exact (Hres w' Hw')].
  - exact (proj1 (proj2 (proj2
      (onEnd_priority playlist round_robin 2
         (world_after [Mount; ClickRepeat; ClickRepeat; ClickPrev])
         (hooks (world_after [Mount; ClickRepeat; ClickRepeat; ClickPrev]))
         eq_refl eq_refl eq_refl
         (conj (fun H => Z.lt_le_incl 0 2 eq_refl H) eq_refl))))
      eq_refl eq_refl).
  - exact (proj2 (proj2 (proj2 (proj2
      (onEnd_priority playlist round_robin 2
         (world_after [Mount; ClickPrev])
         (hooks (world_after [Mount; ClickPrev]))
         eq_refl eq_refl eq_refl
         (conj (fun H => Z.lt_le_incl 0 2 eq_refl H) eq_refl)))))
      eq_refl eq_refl eq_refl).
Defined.

(** [pointer_down_applies_clamp] with a duration of 180 s and the pointer
    a quarter into a bar that starts at x = 100 and is 200 wide. *)
Lemma pointer_down_applies_clamp_witness :
  let w := world_after [Mount; LoadedMetadata (of_Z 180)] in
  let x := of_Z 150 in
  let box := mkRect (of_Z 100) (of_Z 200) in
  is_nan (percent_at x box) = false /\
  audioRef w = true /\ truthy (duration (hooks w)) = true /\
  (exists w', step playlist round_robin 1 (VolumeMouseDown x box) w = Done w' /\
              volume (hooks w') = div (of_Z 1) (of_Z 4)) /\
  (exists w', step playlist round_robin 1 (SeekMouseDown x box) w = Done w' /\
              hooks w' = hooks w /\
              log w' = log w ++ [SetCurrentTime (of_Z 45)]).
Proof.
  cbv zeta.
  pose proof (pointer_down_applies_clamp playlist round_robin 1
                (world_after [Mount; LoadedMetadata (of_Z 180)])
                (of_Z 150) [] (mkRect (of_Z 100) (of_Z 200)) eq_refl)
    as (Hv & _ & Hs & _).
  repeat apply conj; try reflexivity.
  - exact Hv.
  - exact (proj1 (Hs eq_refl eq_refl)).
Defined.

(** ** Further properties of the controls *)

Section Controls.

Variable songs : list Song.
Variable rand : nat -> Z.

Local Abbreviation n := (songs_length songs).

Lemma step_toggleRepeat (fuel : nat) (w : World) :
  step songs rand fuel ClickRepeat w = Done (toggleRepeat w).
Proof.
  unfold step, handle. cbn [bind].
  now rewrite commit_unchanged by reflexivity.
Qed.

Lemma step_toggleShuffle (fuel : nat) (w : World) :
  step songs rand fuel ClickShuffle w = Done (toggleShuffle w).
Proof.
  unfold step, handle. cbn [bind].
  now rewrite commit_unchanged by reflexivity.
Qed.

(** X1. The repeat button steps through off, one, all and back to off:
    one click changes the repeat mode and nothing else (no command, same
    track, same player state, same listeners), and three clicks leave
    the widget exactly as it was. *)
Theorem repeat_cycles_in_three (fuel : nat) (w : World) :
  step songs rand fuel ClickRepeat w
  = Done (setRepeatMode
            (fun _ => match repeatMode (hooks w) with
                      | Off => One
                      | One => All
                      | All => Off
                      end) w) /\
  run songs rand fuel [ClickRepeat; ClickRepeat; ClickRepeat] w = Done w.
Proof.
  split.
  - rewrite step_toggleRepeat. unfold toggleRepeat, setRepeatMode.
    now destruct (repeatMode (hooks w)).
  - cbn [run]. rewrite !step_toggleRepeat. cbn [bind].
    rewrite !step_toggleRepeat. cbn [bind].
    rewrite !step_toggleRepeat. cbn [bind].
    destruct w as [h ref att tm win k cmds aw]. destruct h as [c s p d v u sh r].
    now destruct r.
Qed.

(** X2. The shuffle button flips the flag and nothing else, and two
    clicks leave the widget exactly as it was. *)
Theorem shuffle_toggle_involutive (fuel : nat) (w : World) :
  step songs rand fuel ClickShuffle w
  = Done (setIsShuffle (fun _ => negb (isShuffle (hooks w))) w) /\
  run songs rand fuel [ClickShuffle; ClickShuffle] w = Done w.
Proof.
  split.
  - now rewrite step_toggleShuffle.
  - cbn [run]. rewrite !step_toggleShuffle. cbn [bind].
    rewrite !step_toggleShuffle. cbn [bind].
    destruct w as [h ref att tm win k cmds aw]. destruct h as [c s p d v u sh r].
    now destruct sh.
Qed.

(** *** Play and pause, through the timer *)

Lemma step_ClickPlay (fuel : nat) (w : World) :
  step songs rand fuel ClickPlay w = Done (togglePlay (hooks w) w).
Proof.
  unfold step, handle. cbn [bind].
  rewrite commit_unchanged; [reflexivity| |]; unfold togglePlay;
    destruct (negb (audioRef w) || PlayerState_eqb (state (hooks w)) loading);
    reflexivity.
Qed.

(** X3. A play/pause request with the element present, from playing or
    paused and with no request pending. The click sends nothing, shows
    loading and sets the user-started flag. When the timer has elapsed:
    from playing, pause is sent and the state becomes paused; from
    paused, play is sent and the state stays loading while the promise
    of [play()] is open. If that promise is fulfilled the state becomes
    playing; if it is rejected the state stays loading, and a further
    click is ignored. Nothing else is sent; the track and the
    registered listeners stay the same. *)
Theorem play_pause_round (fuel : nat) (w : World) :
  audioRef w = true ->
  timers w = [] ->
  state (hooks w) <> loading ->
  exists w1,
    step songs rand fuel ClickPlay w = Done w1 /\
    state (hooks w1) = loading /\ log w1 = log w /\
    userStarted (hooks w1) = true /\
    (state (hooks w) = playing ->
     exists w2,
       step songs rand fuel TimerElapses w1 = Done w2 /\
       state (hooks w2) = paused /\ log w2 = log w ++ [Pause] /\
       timers w2 = [] /\ awaiting w2 = awaiting w /\
       current (hooks w2) = current (hooks w) /\ attached w2 = attached w) /\
    (state (hooks w) = paused ->
     exists w2,
       step songs rand fuel TimerElapses w1 = Done w2 /\
       state (hooks w2) = loading /\ log w2 = log w ++ [Play] /\
       timers w2 = [] /\ awaiting w2 = S (awaiting w) /\
       current (hooks w2) = current (hooks w) /\ attached w2 = attached w /\
       (exists w3,
          step songs rand fuel (PlaySettles true) w2 = Done w3 /\
          state (hooks w3) = playing /\ log w3 = log w2 /\
          awaiting w3 = awaiting w /\
          step songs rand fuel TimerFires w1 = Done w3) /\
       (exists w3,
          step songs rand fuel (PlaySettles false) w2 = Done w3 /\
          state (hooks w3) = loading /\ log w3 = log w2 /\
          awaiting w3 = awaiting w /\
          step songs rand fuel ClickPlay w3 = Done w3)).
Proof.
  intros Href Htm Hs.
  rewrite step_ClickPlay.
  assert (Ht : togglePlay (hooks w) w
               = with_timers
                   [if PlayerState_eqb (state (hooks w)) playing
                    then paused else playing]
                   (setState loading (setUserStarted true w))).
  { unfold togglePlay. rewrite Href. cbn [negb orb].
    destruct (state (hooks w)); try contradiction; cbn; now rewrite Htm. }
  rewrite Ht. clear Ht.
  eexists. split; [reflexivity|].
  split; [reflexivity|]. split; [reflexivity|]. split; [reflexivity|].
  split; intros Hst; rewrite Hst; cbn [PlayerState_eqb];
    unfold step, handle, togglePlay_resume, command;
    cbn [timers audioRef with_timers setState setUserStarted with_hooks
         PlayerState_eqb];
    rewrite Href; cbn [bind];
    (rewrite commit_unchanged by reflexivity).
  - eexists. split; [reflexivity|]. now repeat split.
  - eexists. split; [reflexivity|].
    do 6 (split; [reflexivity|]).
    unfold togglePlay_settle.
    cbn [awaiting with_awaiting send setState with_hooks with_timers
         setUserStarted].
    split.
    + rewrite !commit_unchanged by reflexivity.
      eexists. split; [reflexivity|]. now repeat split.
    + rewrite commit_unchanged by reflexivity.
      eexists. split; [reflexivity|].
      do 3 (split; [reflexivity|]).
      unfold togglePlay. cbn. rewrite Href. cbn.
      now rewrite commit_unchanged by reflexivity.
Qed.

(** *** Next and previous, repeated *)

Lemma step_next_sequential (fuel : nat) (w : World) :
  isShuffle (hooks w) = false ->
  step songs rand fuel ClickNext w
  = Done (commit (hooks w)
            (setCurrent (fun prev => Z.rem (prev + 1) n) w)).
Proof. intros Hs. unfold step, handle, nextSong. now rewrite Hs. Qed.

Lemma run_next_times (fuel : nat) (k : nat) :
  forall w,
    0 <= current (hooks w) < n ->
    isShuffle (hooks w) = false ->
    exists w', run songs rand fuel (repeat ClickNext k) w = Done w' /\
               current (hooks w') = (current (hooks w) + Z.of_nat k) mod n /\
               isShuffle (hooks w') = false.
Proof.
  induction k as [|k IH]; intros w Hi Hs.
  - exists w. cbn [repeat run]. repeat split; [|assumption].
    rewrite Z.add_0_r. symmetry. now apply Z.mod_small.
  - cbn [repeat run]. rewrite step_next_sequential by assumption. cbn [bind].
    set (w1 := commit (hooks w) (setCurrent _ w)).
    assert (Hc : current (hooks w1) = (current (hooks w) + 1) mod n).
    { unfold w1. rewrite hooks_commit. cbn. apply Z.rem_mod_nonneg; lia. }
    assert (Hs1 : isShuffle (hooks w1) = false)
      by (unfold w1; rewrite hooks_commit; exact Hs).
    destruct (IH w1) as (w' & Hrun & Hcur & Hsh); [| assumption |].
    { rewrite Hc. apply Z.mod_pos_bound. lia. }
    exists w'. split; [exact Hrun|]. split; [|exact Hsh].
    rewrite Hcur, Hc, Z.add_mod_idemp_l by lia.
    f_equal. lia.
Qed.

Lemma run_prev_times (fuel : nat) (k : nat) :
  forall w,
    0 <= current (hooks w) < n ->
    exists w', run songs rand fuel (repeat ClickPrev k) w = Done w' /\
               current (hooks w') = (current (hooks w) - Z.of_nat k) mod n.
Proof.
  induction k as [|k IH]; intros w Hi.
  - exists w. cbn [repeat run]. split; [reflexivity|].
    rewrite Z.sub_0_r. symmetry. now apply Z.mod_small.
  - cbn [repeat run]. unfold step at 1. cbn [handle bind].
    set (w1 := commit (hooks w) (prevSong songs w)).
    assert (Hc : current (hooks w1) = (current (hooks w) - 1) mod n).
    { unfold w1. rewrite hooks_commit. cbn.
      destruct (Z.eqb_spec (current (hooks w)) 0) as [E|E].
      - rewrite E. replace (0 - 1) with (n - 1 + (-1) * n) by lia.
        rewrite Z.mod_add by lia. symmetry. apply Z.mod_small. lia.
      - symmetry. apply Z.mod_small. lia. }
    destruct (IH w1) as (w' & Hrun & Hcur).
    { rewrite Hc. apply Z.mod_pos_bound. lia. }
    exists w'. split; [exact Hrun|].
    rewrite Hcur, Hc, Zminus_mod_idemp_l.
    f_equal. lia.
Qed.

(** X4. From a valid index [i], pressing next [k] times with shuffle off
    leads to [(i + k) mod trackCount], and pressing previous [k] times to
    [(i - k) mod trackCount]; so as many presses as there are tracks, in
    either direction, lead back to the track one started from. *)
Theorem next_prev_repeated (fuel : nat) (w : World) (k : nat) :
  0 <= current (hooks w) < n ->
  (isShuffle (hooks w) = false ->
   (exists w', run songs rand fuel (repeat ClickNext k) w = Done w' /\
               current (hooks w') = (current (hooks w) + Z.of_nat k) mod n) /\
   (exists w', run songs rand fuel (repeat ClickNext (List.length songs)) w
               = Done w' /\
               current (hooks w') = current (hooks w))) /\
  (exists w', run songs rand fuel (repeat ClickPrev k) w = Done w' /\
              current (hooks w') = (current (hooks w) - Z.of_nat k) mod n) /\
  (exists w', run songs rand fuel (repeat ClickPrev (List.length songs)) w
              = Done w' /\
              current (hooks w') = current (hooks w)).
Proof.
  intros Hi. repeat apply conj.
  - intros Hs. split.
    + destruct (run_next_times fuel k w Hi Hs) as (w' & H1 & H2 & _).
      now exists w'.
    + destruct (run_next_times fuel (List.length songs) w Hi Hs)
        as (w' & H1 & H2 & _).
      exists w'. split; [exact H1|]. rewrite H2. fold n.
      replace (current (hooks w) + n) with (current (hooks w) + 1 * n) by lia.
      rewrite Z.mod_add by lia. now apply Z.mod_small.
  - apply (run_prev_times fuel k w Hi).
  - destruct (run_prev_times fuel (List.length songs) w Hi) as (w' & H1 & H2).
    exists w'. split; [exact H1|]. rewrite H2. fold n.
    replace (current (hooks w) - n) with (current (hooks w) + (-1) * n) by lia.
    rewrite Z.mod_add by lia. now apply Z.mod_small.
Qed.

End Controls.


(** ** What every handler leaves alone *)

Section Folds.

(** A relation between the world before and after, kept by every
    listener, is kept by a whole dispatch. *)
Variable R : World -> World -> Prop.
Hypothesis R_refl : forall w, R w w.
Hypothesis R_trans : forall w1 w2 w3, R w1 w2 -> R w2 w3 -> R w1 w3.

Lemma fold_left_rel (f : World -> Listener -> World) :
  (forall w l, R w (f w l)) ->
  forall ls w, R w (fold_left f ls w).
Proof.
  intros Hf ls. induction ls as [|l ls IH]; intros w; cbn [fold_left].
  - apply R_refl.
  - eapply R_trans; [apply Hf|apply IH].
Qed.

Lemma fold_touchmove_rel (ts : list number) (seek vol : Rect) :
  (forall l w w', on_touchmove ts seek vol l w = Done w' -> R w w') ->
  forall ls (m : outcome World) w w',
    (forall w0, m = Done w0 -> R w w0) ->
    fold_left (fun m l => w' <- m ;; on_touchmove ts seek vol l w') ls m
    = Done w' ->
    R w w'.
Proof.
  intros Hl. induction ls as [|l ls IH]; intros m w w' Hm; cbn [fold_left].
  - intros H. now apply Hm.
  - apply IH. intros w0.
    destruct m as [w1| |]; cbn [bind]; try discriminate.
    intros H. eapply R_trans; [apply Hm; reflexivity|].
    eapply Hl. exact H.
Qed.

End Folds.

Lemma footprint_refl (w : World) : footprint w w.
Proof.
  repeat split; try auto. exists []. now rewrite app_nil_r.
Qed.

Lemma footprint_trans (w1 w2 w3 : World) :
  footprint w1 w2 -> footprint w2 w3 -> footprint w1 w3.
Proof.
  intros (Hr & (c1 & Hl1 & Hb1) & Hu & Hp & Hd)
         (Hr' & (c2 & Hl2 & Hb2) & Hu' & Hp' & Hd').
  repeat split; try auto; try congruence.
  exists (c1 ++ c2). rewrite Hl2, Hl1, <- app_assoc. split; [reflexivity|].
  now rewrite forallb_app, Hb1, Hb2.
Qed.

(** A step that only rewrites hook cells other than progress and
    duration, without giving up [userStarted]. *)
Lemma footprint_hooks (w w' : World) :
  audioRef w' = audioRef w ->
  log w' = log w ->
  progress (hooks w') = progress (hooks w) ->
  duration (hooks w') = duration (hooks w) ->
  (userStarted (hooks w) = true -> userStarted (hooks w') = true) ->
  footprint w w'.
Proof.
  intros Hr Hl Hp Hd Hu. repeat split; try assumption; try congruence.
  exists []. now rewrite app_nil_r.
Qed.

Lemma footprint_send (c : Command) (w : World) :
  benign c = true -> footprint w (send c w).
Proof.
  intros Hc. repeat split; try auto.
  exists [c]. cbn. now rewrite Hc.
Qed.

Lemma seek_update_footprint (d x : number) (rect : Rect) (w : World) :
  footprint w (seek_update d x rect w).
Proof.
  unfold seek_update.
  destruct (negb (audioRef w) || negb (truthy d)).
  - apply footprint_refl.
  - now apply footprint_send.
Qed.

Lemma volume_update_footprint (x : number) (rect : Rect) (w : World) :
  footprint w (volume_update x rect w).
Proof. now apply footprint_hooks. Qed.

Lemma or_else_zero_number (x : number) : is_nan (or_else x zero) = false.
Proof. now destruct x as [[]|[]| |[] m e]. Qed.

Lemma togglePlay_resume_footprint (next : PlayerState) (w w' : World) :
  togglePlay_resume next w = Done w' -> footprint w w'.
Proof.
  unfold togglePlay_resume, command.
  destruct (PlayerState_eqb next playing), (audioRef w);
    cbn [bind]; try discriminate; intros [= <-];
    [apply footprint_trans with (w2 := send Play w)
    |apply footprint_trans with (w2 := send Pause w)];
    try (now apply footprint_send); now apply footprint_hooks.
Qed.

Lemma togglePlay_settle_footprint (fulfilled : bool) (w : World) :
  footprint w (togglePlay_settle fulfilled w).
Proof.
  unfold togglePlay_settle.
  destruct (awaiting w), fulfilled;
    try apply footprint_refl; now apply footprint_hooks.
Qed.

Section Footprints.

Variable songs : list Song.
Variable rand : nat -> Z.

Lemma shuffle_footprint (fuel : nat) (c : Hooks) (w w' : World) :
  shuffle songs rand fuel c w = Done w' -> footprint w w'.
Proof.
  unfold shuffle. destruct (songs_length songs <=? 1).
  - intros [= <-]. apply footprint_refl.
  - destruct (redraw rand fuel (current c) (draws w)) as [[next k]|];
      [|discriminate].
    intros [= <-]. now apply footprint_hooks.
Qed.

Lemma nextSong_footprint (fuel : nat) (c : Hooks) (w w' : World) :
  nextSong songs rand fuel c w = Done w' -> footprint w w'.
Proof.
  unfold nextSong. destruct (isShuffle c).
  - apply shuffle_footprint.
  - intros [= <-]. now apply footprint_hooks.
Qed.

Lemma onEnd_footprint (fuel : nat) (c : Hooks) (w w' : World) :
  onEnd songs rand fuel c w = Done w' -> footprint w w'.
Proof.
  unfold onEnd.
  destruct (RepeatMode_eqb (repeatMode c) One).
  { intros [= <-]. destruct (audioRef w);
      [now apply footprint_send|apply footprint_refl]. }
  destruct (isShuffle c); [apply shuffle_footprint|].
  destruct (RepeatMode_eqb (repeatMode c) All); [apply nextSong_footprint|].
  destruct (current c <? songs_length songs - 1); [apply nextSong_footprint|].
  intros [= <-]. now apply footprint_hooks.
Qed.

(** Every handler but mounting and unmounting has that footprint. *)
Lemma handle_footprint (fuel : nat) (ev : Event) (w w' : World) :
  ev <> Mount -> ev <> Unmount ->
  handle songs rand fuel ev w = Done w' -> footprint w w'.
Proof.
  intros Hm Hu.
  destruct ev; try congruence; cbn [handle].
  - (* ClickPlay *)
    intros [= <-]. unfold togglePlay.
    destruct (negb (audioRef w) || PlayerState_eqb (state (hooks w)) loading);
      [apply footprint_refl|now apply footprint_hooks].
  - (* TimerFires *)
    destruct (timers w) as [|next rest].
    + intros [= <-]. apply footprint_refl.
    + destruct (togglePlay_resume next (with_timers rest w)) as [w1| |] eqn:E;
        cbn [bind]; try discriminate.
      intros [= <-].
      apply footprint_trans with (w2 := with_timers rest w);
        [now apply footprint_hooks|].
      apply footprint_trans with (w2 := w1);
        [now apply togglePlay_resume_footprint with (next := next)|].
      destruct (PlayerState_eqb next playing);
        [apply togglePlay_settle_footprint|apply footprint_refl].
  - intros [= <-]. now apply footprint_hooks.
  - intros [= <-]. now apply footprint_hooks.
  - apply nextSong_footprint.
  - intros [= <-]. now apply footprint_hooks.
  - (* Ended *)
    destruct (attached w) as [c|].
    + apply onEnd_footprint.
    + intros [= <-]. apply footprint_refl.
  - (* TimeUpdate *)
    destruct (attached w); intros [= <-]; [|apply footprint_refl].
    repeat split; try auto.
    + exists []. now rewrite app_nil_r.
    + intros _. cbn. apply or_else_zero_number.
  - (* LoadedMetadata *)
    destruct (attached w); intros [= <-]; [|apply footprint_refl].
    repeat split; try auto.
    + exists []. now rewrite app_nil_r.
    + intros _. cbn. apply or_else_zero_number.
  - (* SeekMouseDown *)
    intros [= <-]. unfold seek_onMouseDown.
    eapply footprint_trans; [apply seek_update_footprint|].
    now apply footprint_hooks.
  - unfold seek_onTouchStart.
    destruct touches as [|x ts]; cbn [first_touch bind]; [discriminate|].
    intros [= <-].
    eapply footprint_trans; [apply seek_update_footprint|].
    now apply footprint_hooks.
  - intros [= <-]. now apply footprint_hooks.
  - unfold volume_onTouchStart.
    destruct touches as [|x ts]; cbn [first_touch bind]; [discriminate|].
    intros [= <-]. now apply footprint_hooks.
  - (* MouseMove *)
    intros [= <-].
    apply (fold_left_rel footprint footprint_refl footprint_trans).
    intros w0 []; cbn [on_mousemove]; try apply footprint_refl;
      [apply seek_update_footprint|apply volume_update_footprint].
  - intros [= <-].
    apply (fold_left_rel footprint footprint_refl footprint_trans).
    intros w0 []; cbn [on_mouseup]; now apply footprint_hooks.
  - (* TouchMove *)
    intros H.
    eapply (fold_touchmove_rel footprint footprint_trans);
      [| |exact H].
    + intros l w0 w1. destruct l; cbn [on_touchmove];
        try (intros [= <-]; apply footprint_refl);
        destruct touches as [|x ts]; cbn; try discriminate; intros [= <-];
        [apply seek_update_footprint|apply volume_update_footprint].
    + intros w0 [= <-]. apply footprint_refl.
  - intros [= <-].
    apply (fold_left_rel footprint footprint_refl footprint_trans).
    intros w0 []; cbn [on_touchend]; now apply footprint_hooks.
  - (* TimerElapses *)
    destruct (timers w) as [|next rest].
    + intros [= <-]. apply footprint_refl.
    + intros E.
      apply footprint_trans with (w2 := with_timers rest w);
        [now apply footprint_hooks|].
      now apply togglePlay_resume_footprint with (next := next).
  - (* PlaySettles *)
    intros [= <-]. apply togglePlay_settle_footprint.
Qed.

End Footprints.


(** ** Invariants of the reachable worlds *)

Lemma last_volume_app (l l' : list Command) :
  last_volume (l ++ l')
  = match last_volume l' with
    | Some v => Some v
    | None => last_volume l
    end.
Proof.
  unfold last_volume. rewrite fold_left_app.
  generalize (fold_left
                (fun acc c => match c with SetVolume v => Some v | _ => acc end)
                l None) as acc.
  induction l' as [|c l' IH] using rev_ind; intros acc; [reflexivity|].
  rewrite !fold_left_app. cbn [fold_left].
  destruct c; try reflexivity; apply IH.
Qed.

Lemma last_volume_benign (cmds : list Command) :
  forallb benign cmds = true -> last_volume cmds = None.
Proof.
  induction cmds as [|c cmds IH] using rev_ind; [reflexivity|].
  rewrite forallb_app, last_volume_app. cbn.
  intros H. apply andb_prop in H as [H1 H2].
  destruct c; try discriminate; now apply IH.
Qed.

Lemma log_mount (w : World) : log (mount w) = [SetVolume lit_0_2].
Proof. reflexivity. Qed.

Lemma audioRef_mount (w : World) : audioRef (mount w) = true.
Proof. reflexivity. Qed.

Lemma audioRef_commit (prev : Hooks) (w : World) :
  audioRef (commit prev w) = audioRef w.
Proof.
  destruct w as [h ref att tm win k cmds aw].
  unfold commit, track_change, audio_sync, audio_sync_cleanup. cbn.
  repeat match goal with
         | |- context [if ?b then _ else _] => destruct b; cbn
         end; reflexivity.
Qed.

(** What a re-render appends to the log: nothing, the volume, or the
    volume followed by load and play, the latter only when the user has
    started playback. *)
Lemma log_commit (prev : Hooks) (w : World) :
  log (commit prev w) = log w \/
  log (commit prev w) = log w ++ [SetVolume (volume (hooks w))] \/
  (userStarted (hooks w) = true /\
   log (commit prev w) = log w ++ [SetVolume (volume (hooks w)); Load; Play]).
Proof.
  destruct w as [h ref att tm win k cmds aw].
  unfold commit, track_change, audio_sync, audio_sync_cleanup. cbn.
  destruct (negb (current prev =? current h)),
           (negb (same_value (volume prev) (volume h))),
           ref; cbn;
    try (left; reflexivity); try (right; left; reflexivity);
    destruct (userStarted h); cbn;
    try (left; reflexivity); try (right; left; reflexivity);
    right; right; split; try reflexivity; now rewrite <- ?app_assoc.
Qed.

Lemma commit_pushes_volume (prev : Hooks) (w : World) :
  audioRef w = true ->
  (commit prev w = w /\
   current prev = current (hooks w) /\ volume prev = volume (hooks w)) \/
  last_volume (log (commit prev w)) = Some (volume (hooks w)).
Proof.
  intros Href.
  destruct (Z.eqb_spec (current prev) (current (hooks w))) as [Hc|Hc];
    [destruct (same_value (volume prev) (volume (hooks w))) eqn:Hv|].
  - left. rewrite commit_unchanged; auto using same_value_eq.
  - right. unfold commit. rewrite Hc, Z.eqb_refl, Hv. cbn [negb orb].
    unfold audio_sync, audio_sync_cleanup. cbn -[last_volume].
    rewrite Href. cbn -[last_volume].
    now rewrite last_volume_app.
  - right. destruct (index_change_effects prev w Href Hc) as [_ ->].
    rewrite last_volume_app. now destruct (userStarted (hooks w)).
Qed.

Section Invariants.

Variable songs : list Song.
Variable rand : nat -> Z.

Local Abbreviation n := (songs_length songs).

(** One event is a mount, or a handler followed by a re-render, where
    the handler unmounts or has the footprint above. *)
Lemma step_shape (fuel : nat) (ev : Event) (w w' : World) :
  step songs rand fuel ev w = Done w' ->
  (ev = Mount /\ w' = mount w) \/
  (ev <> Mount /\
   exists w1,
     w' = commit (hooks w) w1 /\ (w1 = unmount w \/ footprint w w1)).
Proof.
  intros Hstep.
  destruct (step_cases songs rand fuel ev w w' Hstep)
    as [[-> ->]|(Hne & w1 & Hh & ->)]; [now left|].
  right. split; [exact Hne|]. exists w1. split; [reflexivity|].
  destruct ev; try congruence;
    try (right;
         match type of Hh with
         | handle _ _ _ ?e _ = _ =>
             apply (handle_footprint songs rand fuel e w w1);
             [discriminate|discriminate|exact Hh]
         end).
  left. cbn in Hh. now injection Hh as <-.
Qed.

Lemma run_reachable (fuel : nat) (evs : list Event) :
  forall w w',
    reachable songs rand w ->
    run songs rand fuel evs w = Done w' ->
    reachable songs rand w'.
Proof.
  induction evs as [|ev evs IH]; intros w w' Hw; cbn [run].
  - now intros [= <-].
  - destruct (step songs rand fuel ev w) as [w1| |] eqn:Hs;
      cbn [bind]; try discriminate.
    apply IH. exact (reachable_step songs rand fuel ev w w1 Hw Hs).
Qed.

(** X5. On a playlist that is not empty, with draws in range, the track
    index of every reachable world is an index into the playlist, so
    [songs[current]], which the header and the audio element read, is
    always a track. *)
Theorem current_song_defined (w : World) :
  0 < n ->
  (forall k, 0 <= rand k < n) ->
  reachable songs rand w ->
  0 <= current (hooks w) < n /\
  exists song, current_song songs w = Some song.
Proof.
  intros Hn Hrange Hreach.
  destruct (reachable_invariant songs rand w Hn Hrange Hreach) as [_ Hi].
  split; [exact Hi|].
  unfold current_song.
  destruct (Z.ltb_spec (current (hooks w)) 0); [lia|].
  destruct (nth_error songs (Z.to_nat (current (hooks w)))) as [song|] eqn:E.
  - now exists song.
  - apply nth_error_None in E. unfold songs_length in Hi. lia.
Qed.

(** X6. Whenever an event changes the track index or the volume while
    the element is there, the listeners registered afterwards are those
    of the new render: they read the index, shuffle flag and repeat mode
    the hooks hold after the event. *)
Theorem listeners_follow_index_and_volume
    (fuel : nat) (ev : Event) (w w' : World) :
  step songs rand fuel ev w = Done w' ->
  audioRef w' = true ->
  current (hooks w') <> current (hooks w) \/
  volume (hooks w') <> volume (hooks w) ->
  attached w' = Some (hooks w').
Proof.
  intros Hstep Href Hchg.
  destruct (step_shape fuel ev w w' Hstep) as [[_ ->]|(_ & w1 & -> & _)];
    [reflexivity|].
  rewrite hooks_commit in *.
  destruct (commit_cases (hooks w) w1) as [(_ & Hc & Hv)|(Hr & Ha)].
  - destruct Hchg; congruence.
  - rewrite Hr in Href. now rewrite Ha, Href.
Qed.

(** X7. In every reachable world the progress and the duration held in
    state are numbers: [|| 0] turns every NaN that comes from the
    element's timing into 0. *)
Theorem media_numbers_stay_numbers (w : World) :
  reachable songs rand w ->
  is_nan (progress (hooks w)) = false /\
  is_nan (duration (hooks w)) = false.
Proof.
  intros Hreach. induction Hreach as [|fuel ev w w' _ [IHp IHd] Hstep].
  - now split.
  - destruct (step_shape fuel ev w w' Hstep) as [[_ ->]|(_ & w1 & -> & Hw1)];
      [now split|].
    rewrite hooks_commit.
    destruct Hw1 as [->|(_ & _ & _ & Hp & Hd)].
    + now split.
    + auto.
Qed.

(** X8. Load is never sent before the user has pressed play: in every
    reachable world whose log holds a load, the user-started flag is
    set. Within the life of an instance the flag is never taken back:
    no event but the mount of a fresh instance, which starts with the
    flag unset and an empty log, resets it. *)
Theorem load_needs_user_start :
  (forall w, reachable songs rand w ->
             In Load (log w) -> userStarted (hooks w) = true) /\
  (forall fuel ev w w',
     ev <> Mount ->
     step songs rand fuel ev w = Done w' ->
     userStarted (hooks w) = true -> userStarted (hooks w') = true) /\
  (forall fuel w w',
     step songs rand fuel Mount w = Done w' ->
     userStarted (hooks w') = false /\ ~ In Load (log w')).
Proof.
  assert (Hmono : forall fuel ev w w',
             ev <> Mount ->
             step songs rand fuel ev w = Done w' ->
             userStarted (hooks w) = true -> userStarted (hooks w') = true).
  { intros fuel ev w w' Hne Hstep Hu.
    destruct (step_shape fuel ev w w' Hstep)
      as [[-> _]|(_ & w1 & -> & Hw1)]; [congruence|].
    rewrite hooks_commit.
    destruct Hw1 as [->|(_ & _ & Hu1 & _)]; auto. }
  assert (Hmount : forall fuel w w',
             step songs rand fuel Mount w = Done w' ->
             userStarted (hooks w') = false /\ ~ In Load (log w')).
  { intros fuel w w' Hstep.
    destruct (step_cases songs rand fuel Mount w w' Hstep)
      as [[_ ->]|(Hne & _)]; [|congruence].
    split; [reflexivity|].
    rewrite log_mount. intros [H|[]]. discriminate. }
  split; [|split; [exact Hmono|exact Hmount]].
  intros w Hreach. induction Hreach as [|fuel ev w w' _ IH Hstep].
  - intros [].
  - intros Hin.
    destruct (step_cases songs rand fuel ev w w' Hstep)
      as [[-> ->]|(Hne & _)].
    { rewrite log_mount in Hin. destruct Hin as [H|[]]. discriminate. }
    destruct (userStarted (hooks w')) eqn:Hu'; [reflexivity|].
    assert (Hu : userStarted (hooks w) = false).
    { destruct (userStarted (hooks w)) eqn:E; [|reflexivity].
      rewrite (Hmono fuel ev w w' Hne Hstep E) in Hu'. discriminate. }
    assert (Hw : ~ In Load (log w))
      by (intros H; rewrite IH in Hu; auto; discriminate).
    destruct (step_shape fuel ev w w' Hstep)
      as [[E _]|(_ & w1 & -> & Hw1)]; [congruence|].
    rewrite hooks_commit in Hu'.
    assert (Hw1log : ~ In Load (log w1)).
    { destruct Hw1 as [->|(_ & (cmds & Hl & Hb) & _)].
      - exact Hw.
      - rewrite Hl. intros H. apply in_app_or in H as [H|H]; [auto|].
        rewrite forallb_forall in Hb. now specialize (Hb Load H). }
    destruct (log_commit (hooks w) w1) as [E|[E|[E _]]].
    + rewrite E in Hin. contradiction.
    + rewrite E in Hin. apply in_app_or in Hin as [H|[H|[]]];
        [contradiction|discriminate].
    + congruence.
Qed.

(** X9. While the element is there, the volume it was given last is the
    volume held in state: every change of the volume is pushed, and a
    mount pushes the current one. *)
Theorem element_volume_follows_state (w : World) :
  reachable songs rand w ->
  audioRef w = true ->
  last_volume (log w) = Some (volume (hooks w)).
Proof.
  intros Hreach. induction Hreach as [|fuel ev w w' _ IH Hstep].
  - discriminate.
  - destruct (step_shape fuel ev w w' Hstep) as [[_ ->]|(_ & w1 & -> & Hw1)];
      [reflexivity|].
    rewrite audioRef_commit, hooks_commit. intros Href.
    destruct (commit_pushes_volume (hooks w) w1 Href)
      as [(-> & Hc & Hv)|H]; [|exact H].
    destruct Hw1 as [->|(Hr & (cmds & Hl & Hb) & _)].
    + discriminate.
    + rewrite Hl, last_volume_app, (last_volume_benign cmds Hb), <- Hv.
      apply IH. congruence.
Qed.

End Invariants.


(** ** Drags *)

Lemma window_commit (prev : Hooks) (w : World) :
  window (commit prev w) = window w.
Proof.
  destruct w as [h ref att tm win k cmds aw].
  unfold commit, track_change, audio_sync, audio_sync_cleanup. cbn.
  repeat match goal with
         | |- context [if ?b then _ else _] => destruct b; cbn
         end; reflexivity.
Qed.

Lemma window_seek_update (d x : number) (rect : Rect) (w : World) :
  window (seek_update d x rect w) = window w.
Proof.
  unfold seek_update.
  now destruct (negb (audioRef w) || negb (truthy d)).
Qed.

Section Drags.

Variable songs : list Song.
Variable rand : nat -> Z.

Lemma run_app (fuel : nat) (evs1 evs2 : list Event) :
  forall w,
    run songs rand fuel (evs1 ++ evs2) w
    = (w' <- run songs rand fuel evs1 w ;; run songs rand fuel evs2 w').
Proof.
  induction evs1 as [|ev evs1 IH]; intros w; cbn [app run bind];
    [reflexivity|].
  destruct (step songs rand fuel ev w); cbn [bind]; auto.
Qed.

Lemma step_mouse_move (fuel : nat) (m : number * Rect * Rect) (w : World) :
  exists w', step songs rand fuel (mouse_move m) w = Done w' /\
             window w' = window w.
Proof.
  unfold step, mouse_move, handle. cbn [bind].
  eexists; split; [reflexivity|].
  rewrite window_commit.
  apply (fold_left_rel (fun a b => window b = window a)); try congruence.
  intros w0 []; cbn [on_mousemove]; try reflexivity.
  apply window_seek_update.
Qed.

Lemma run_mouse_moves (fuel : nat) (moves : list (number * Rect * Rect)) :
  forall w,
    exists w', run songs rand fuel (map mouse_move moves) w = Done w' /\
               window w' = window w.
Proof.
  induction moves as [|m moves IH]; intros w; cbn [map run].
  - now exists w.
  - destruct (step_mouse_move fuel m w) as (w1 & -> & H1). cbn [bind].
    destruct (IH w1) as (w' & -> & H2). exists w'. split; congruence.
Qed.

Lemma touch_moves_return (x : number) (more : list number) (seek vol : Rect) :
  forall ls w,
    exists w',
      fold_left (fun m l => w' <- m ;; on_touchmove (x :: more) seek vol l w')
        ls (Done w) = Done w' /\
      window w' = window w.
Proof.
  induction ls as [|l ls IH]; intros w; cbn [fold_left bind].
  - now exists w.
  - assert (H : exists w1, on_touchmove (x :: more) seek vol l w = Done w1 /\
                           window w1 = window w).
    { destruct l; cbn; eexists; split; try reflexivity.
      apply window_seek_update. }
    destruct H as (w1 & -> & H1).
    destruct (IH w1) as (w' & -> & H2). exists w'. split; congruence.
Qed.

Lemma step_touch_move (fuel : nat)
    (m : number * list number * Rect * Rect) (w : World) :
  exists w', step songs rand fuel (touch_move m) w = Done w' /\
             window w' = window w.
Proof.
  unfold step, touch_move, handle.
  destruct (touch_moves_return (fst (fst (fst m))) (snd (fst (fst m)))
              (snd (fst m)) (snd m) (window w) w) as (w1 & -> & H1).
  cbn [bind]. eexists; split; [reflexivity|].
  now rewrite window_commit.
Qed.

Lemma run_touch_moves (fuel : nat)
    (moves : list (number * list number * Rect * Rect)) :
  forall w,
    exists w', run songs rand fuel (map touch_move moves) w = Done w' /\
               window w' = window w.
Proof.
  induction moves as [|m moves IH]; intros w; cbn [map run].
  - now exists w.
  - destruct (step_touch_move fuel m w) as (w1 & -> & H1). cbn [bind].
    destruct (IH w1) as (w' & -> & H2). exists w'. split; congruence.
Qed.

Lemma step_mouse_up (fuel : nat) (w : World) (down up : Listener) :
  window w = [down; up] ->
  on_mouseup down = (fun w => w) ->
  (forall w0, window w0 = [down; up] -> window (on_mouseup up w0) = []) ->
  exists w', step songs rand fuel MouseUp w = Done w' /\ window w' = [].
Proof.
  intros Hw Hd Hu. unfold step, handle. cbn [bind].
  eexists; split; [reflexivity|].
  rewrite window_commit, Hw. cbn [fold_left]. rewrite Hd.
  now apply Hu.
Qed.

Lemma step_touch_end (fuel : nat) (w : World) (move stop : Listener) :
  window w = [move; stop] ->
  on_touchend move = (fun w => w) ->
  (forall w0, window w0 = [move; stop] -> window (on_touchend stop w0) = []) ->
  exists w', step songs rand fuel TouchEnd w = Done w' /\ window w' = [].
Proof.
  intros Hw Hd Hu. unfold step, handle. cbn [bind].
  eexists; split; [reflexivity|].
  rewrite window_commit, Hw. cbn [fold_left]. rewrite Hd.
  now apply Hu.
Qed.

(** X10. A mouse drag on either bar that starts with no listener on the
    window ends with none: whatever moves come in between, and wherever
    the pointer goes, the mouse-up removes the move listener and
    itself. No event of the drag fails. *)
Theorem mouse_drag_releases_listeners (fuel : nat) (w : World)
    (x : number) (rect : Rect) (moves : list (number * Rect * Rect)) :
  window w = [] ->
  (exists w', run songs rand fuel
                (SeekMouseDown x rect :: map mouse_move moves ++ [MouseUp]) w
              = Done w' /\ window w' = []) /\
  (exists w', run songs rand fuel
                (VolumeMouseDown x rect :: map mouse_move moves ++ [MouseUp]) w
              = Done w' /\ window w' = []).
Proof.
  intros Hw. split; cbn [run]; unfold step at 1; cbn [handle bind];
    rewrite run_app;
    match goal with
    | |- context [run _ _ _ (map mouse_move moves) ?w1] =>
        destruct (run_mouse_moves fuel moves w1) as (w2 & -> & H2);
        rewrite window_commit in H2
    end; cbn [bind run].
  - unfold seek_onMouseDown in H2. cbn in H2.
    rewrite window_seek_update, Hw in H2. cbn in H2.
    destruct (step_mouse_up fuel w2 _ _ H2) as (w' & -> & H');
      [reflexivity| |now exists w'].
    intros w0 H0. cbn. rewrite H0. cbn.
    rewrite same_value_refl. cbn. now rewrite same_value_refl.
  - cbn in H2. rewrite Hw in H2. cbn in H2.
    destruct (step_mouse_up fuel w2 _ _ H2) as (w' & -> & H');
      [reflexivity| |now exists w'].
    intros w0 H0. cbn. now rewrite H0.
Qed.

(** X11. The same for a touch drag, every touch event of which carries a
    first touch point: after the touch end no listener is left on the
    window, and no event of the drag fails. *)
Theorem touch_drag_releases_listeners (fuel : nat) (w : World)
    (x : number) (more : list number) (rect : Rect)
    (moves : list (number * list number * Rect * Rect)) :
  window w = [] ->
  (exists w', run songs rand fuel
                (SeekTouchStart (x :: more) rect
                   :: map touch_move moves ++ [TouchEnd]) w
              = Done w' /\ window w' = []) /\
  (exists w', run songs rand fuel
                (VolumeTouchStart (x :: more) rect
                   :: map touch_move moves ++ [TouchEnd]) w
              = Done w' /\ window w' = []).
Proof.
  intros Hw. split; cbn [run]; unfold step at 1; cbn [handle bind];
    [unfold seek_onTouchStart|unfold volume_onTouchStart];
    cbn [first_touch bind];
    rewrite run_app;
    match goal with
    | |- context [run _ _ _ (map touch_move moves) ?w1] =>
        destruct (run_touch_moves fuel moves w1) as (w2 & -> & H2);
        rewrite window_commit in H2
    end; cbn [bind run].
  - cbn in H2. rewrite window_seek_update, Hw in H2. cbn in H2.
    destruct (step_touch_end fuel w2 _ _ H2) as (w' & -> & H');
      [reflexivity| |now exists w'].
    intros w0 H0. cbn. rewrite H0. cbn.
    rewrite same_value_refl. cbn. now rewrite same_value_refl.
  - cbn in H2. rewrite Hw in H2. cbn in H2.
    destruct (step_touch_end fuel w2 _ _ H2) as (w' & -> & H');
      [reflexivity| |now exists w'].
    intros w0 H0. cbn. now rewrite H0.
Qed.

End Drags.


(** ** More on seeking, shuffling and the time labels *)

Section More.

Variable songs : list Song.
Variable rand : nat -> Z.

Local Abbreviation n := (songs_length songs).

Lemma hooks_seek_update (d x : number) (rect : Rect) (w : World) :
  hooks (seek_update d x rect w) = hooks w.
Proof.
  unfold seek_update.
  now destruct (negb (audioRef w) || negb (truthy d)).
Qed.

Lemma audioRef_seek_update (d x : number) (rect : Rect) (w : World) :
  audioRef (seek_update d x rect w) = audioRef w.
Proof.
  unfold seek_update.
  now destruct (negb (audioRef w) || negb (truthy d)).
Qed.

Lemma log_seek_update (d x : number) (rect : Rect) (w : World) :
  audioRef w = true ->
  log (seek_update d x rect w)
  = log w ++ (if truthy d
              then [SetCurrentTime
                      (mul d (Math_min one (Math_max zero (percent_at x rect))))]
              else []).
Proof.
  intros Href. unfold seek_update. rewrite Href. cbn [negb orb].
  destruct (truthy d); cbn; [reflexivity|now rewrite app_nil_r].
Qed.

Lemma step_metadata_frame (fuel : nat) (d' : number) (w : World) :
  exists w', step songs rand fuel (LoadedMetadata d') w = Done w' /\
             window w' = window w /\ log w' = log w /\
             audioRef w' = audioRef w.
Proof.
  unfold step, handle.
  destruct (attached w); cbn [bind];
    (rewrite commit_unchanged by reflexivity);
    eexists; (split; [reflexivity|]); now repeat split.
Qed.

(** X12. A seek drag works with the duration known when the pointer went
    down. Started with no other drag under way and the element present,
    its pointer-down and a later move each seek to that duration times
    the clamped fraction, also when new metadata arrived in between; and
    started while the duration was 0, the whole drag sends nothing. *)
Theorem seek_drag_keeps_duration (fuel : nat) (w : World)
    (x : number) (rect : Rect) (d' : number)
    (x' : number) (seek' vol' : Rect) :
  window w = [] ->
  audioRef w = true ->
  let d := duration (hooks w) in
  let target p := mul d (Math_min one (Math_max zero p)) in
  exists w',
    run songs rand fuel
      [SeekMouseDown x rect; LoadedMetadata d'; MouseMove x' seek' vol'] w
    = Done w' /\
    log w' = log w ++ (if truthy d
                       then [SetCurrentTime (target (percent_at x rect));
                             SetCurrentTime (target (percent_at x' seek'))]
                       else []).
Proof.
  intros Hw Href d target. cbn [run].
  (* pointer down *)
  unfold step at 1. cbn [handle bind].
  set (w1 := seek_onMouseDown (hooks w) x rect w).
  assert (H1 : hooks w1 = hooks w)
    by (unfold w1, seek_onMouseDown; cbn; apply hooks_seek_update).
  rewrite commit_unchanged by (rewrite H1; reflexivity).
  assert (W1 : window w1 = [SeekMouseMove d; SeekMouseUp d]).
  { unfold w1, seek_onMouseDown. cbn.
    now rewrite window_seek_update, Hw. }
  assert (L1 : log w1 = log w ++ (if truthy d
                                  then [SetCurrentTime (target (percent_at x rect))]
                                  else [])).
  { unfold w1, seek_onMouseDown. cbn. now apply log_seek_update. }
  assert (R1 : audioRef w1 = true).
  { unfold w1, seek_onMouseDown. cbn. now rewrite audioRef_seek_update. }
  (* metadata *)
  destruct (step_metadata_frame fuel d' w1) as (w2 & -> & W2 & L2 & R2).
  cbn [bind].
  (* move *)
  unfold step. cbn [handle bind]. rewrite W2, W1. cbn [fold_left on_mousemove].
  rewrite commit_unchanged
    by (rewrite hooks_seek_update; reflexivity).
  eexists; split; [reflexivity|].
  rewrite log_seek_update by congruence.
  rewrite L2, L1. fold target.
  destruct (truthy d); cbn; now rewrite <- ?app_assoc, ?app_nil_r.
Qed.

(** X13. The re-draw loop of shuffle has no bound of its own: with more
    than one track and an oracle that keeps drawing the current index,
    it is still looping after any number of iterations. *)
Theorem shuffle_spins_on_repeated_draws (fuel : nat) (c : Hooks) (w : World) :
  1 < n ->
  (forall k, (draws w <= k)%nat -> rand k = current c) ->
  shuffle songs rand fuel c w = Spinning.
Proof.
  intros Hn Hsame. unfold shuffle.
  destruct (Z.leb_spec n 1); [lia|].
  pose proof (redraw_spec rand fuel (current c) (draws w)) as Hr.
  destruct (redraw rand fuel (current c) (draws w)) as [[next k]|];
    [|reflexivity].
  destruct Hr as (j & _ & -> & Hd & _).
  elim Hd. apply Hsame. lia.
Qed.

End More.

Section TimeLabels.

Variable other : number -> String.string.

Lemma formats_from_sound (count : nat) :
  forall a,
    formats_from other count a = true ->
    forall z, a <= z < a + Z.of_nat count ->
              formatTime other (of_Z z) = minutes_seconds z.
Proof.
  induction count as [|count IH]; intros a H z Hz; [lia|].
  cbn [formats_from] in H. apply andb_prop in H as [H1 H2].
  destruct (Z.eq_dec z a) as [->|Hne].
  - now apply String.eqb_eq.
  - apply (IH (a + 1) H2). lia.
Qed.

Local Open Scope string_scope.

(** X14. [formatTime] on whole seconds below two hours prints the
    minutes, a colon and the seconds on two digits; minutes are not
    folded into hours. A falsy argument (0, -0, NaN) prints 0:00. An
    infinite duration passes the guard of the duration label and prints
    as Infinity:NaN. *)
Theorem formatTime_minutes_seconds :
  (forall z, 0 <= z < 7200 ->
             formatTime other (of_Z z) = minutes_seconds z) /\
  (forall sec, truthy sec = false -> formatTime other sec = "0:00") /\
  (forall w, duration (hooks w) = S754_infinity false ->
             duration_label other w = "Infinity:NaN").
Proof.
  repeat apply conj.
  - intros z Hz. apply (formats_from_sound (Z.to_nat 7200) 0).
    + vm_compute. reflexivity.
    + rewrite Z2Nat.id; lia.
  - intros sec H. unfold formatTime. now rewrite H.
  - intros w H. unfold duration_label. now rewrite H.
Qed.

Local Close Scope string_scope.

End TimeLabels.


(** ** After unmounting *)

Section Unmounted.

Variable songs : list Song.
Variable rand : nat -> Z.

(** X15. Unmounting removes the media listeners and empties the ref: in
    the world it leaves, an end of track, a time update, new metadata
    and a click on play change nothing and send nothing. *)
Theorem unmounted_ignores_media (fuel : nat) (w : World) (t d : number) :
  exists w1,
    step songs rand fuel Unmount w = Done w1 /\
    hooks w1 = hooks w /\ log w1 = log w /\
    step songs rand fuel Ended w1 = Done w1 /\
    step songs rand fuel (TimeUpdate t d) w1 = Done w1 /\
    step songs rand fuel (LoadedMetadata d) w1 = Done w1 /\
    step songs rand fuel ClickPlay w1 = Done w1.
Proof.
  exists (unmount w). unfold step, handle. cbn [bind attached unmount
    with_audioRef audio_sync_cleanup with_attached].
  unfold togglePlay. cbn [audioRef negb orb bind].
  rewrite !commit_unchanged by reflexivity.
  now repeat split.
Qed.

End Unmounted.

(** ** The volume stays in the unit interval *)

(** Rounding a mantissa that is not negative never yields NaN. *)
Lemma shr_1_nonneg (mrs : shr_record) :
  0 <= shr_m mrs -> 0 <= shr_m (shr_1 mrs).
Proof.
  destruct mrs as [m r t]. destruct m as [|p|p]; cbn; try lia.
  destruct p; cbn; lia.
Qed.

Lemma iter_shr_1_nonneg (p : positive) :
  forall mrs, 0 <= shr_m mrs -> 0 <= shr_m (iter_pos shr_1 p mrs).
Proof.
  induction p as [p IH|p IH|]; intros mrs H; cbn [iter_pos];
    auto using shr_1_nonneg.
Qed.

Lemma shr_fexp_nonneg (m e : Z) (l : location) :
  0 <= m -> 0 <= shr_m (fst (shr_fexp prec emax m e l)).
Proof.
  intros H. unfold shr_fexp, shr.
  assert (H0 : 0 <= shr_m (shr_record_of_loc m l))
    by (destruct l as [|[]]; exact H).
  destruct (fexp prec emax (Zdigits2 m + e) - e); cbn [fst];
    auto using iter_shr_1_nonneg.
Qed.

Lemma round_nearest_even_nonneg (m : Z) (l : location) :
  0 <= m -> 0 <= round_nearest_even m l.
Proof.
  intros H. destruct l as [|[]]; cbn; try destruct (Z.even m); lia.
Qed.

Lemma binary_round_aux_number (sx : bool) (mx ex : Z) (lx : location) :
  0 <= mx -> is_nan (binary_round_aux prec emax sx mx ex lx) = false.
Proof.
  intros H. unfold binary_round_aux.
  pose proof (shr_fexp_nonneg mx ex lx H) as H1.
  destruct (shr_fexp prec emax mx ex lx) as [mrs' e']. cbn [fst] in H1.
  pose proof (shr_fexp_nonneg _ e' loc_Exact
                (round_nearest_even_nonneg (shr_m mrs')
                   (loc_of_shr_record mrs') H1)) as H2.
  destruct (shr_fexp prec emax
              (round_nearest_even (shr_m mrs') (loc_of_shr_record mrs'))
              e' loc_Exact) as [mrs'' e''].
  cbn [fst] in H2.
  destruct (shr_m mrs''); [reflexivity| |lia].
  now destruct (e'' <=? emax - prec).
Qed.

Lemma binary_normalize_number (m e : Z) (szero : bool) :
  is_nan (binary_normalize prec emax m e szero) = false.
Proof.
  destruct m as [|p|p]; cbn [binary_normalize]; [reflexivity| |];
    unfold binary_round;
    destruct (shl_align p e (fexp prec emax (Z.pos (digits2_pos p) + e)));
    apply binary_round_aux_number; lia.
Qed.

Lemma sub_number (x y : number) :
  is_finite x = true -> is_finite y = true -> is_nan (sub x y) = false.
Proof.
  destruct x as [sx|sx| |sx mx ex], y as [sy|sy| |sy my ey];
    try discriminate; intros _ _; unfold sub; cbn [SFsub].
  - now destruct sx, sy.
  - reflexivity.
  - reflexivity.
  - apply binary_normalize_number.
Qed.

Lemma div_number (x y : number) :
  is_nan x = false -> is_finite_nonzero y = true -> is_nan (div x y) = false.
Proof.
  destruct x as [sx|sx| |sx mx ex], y as [sy|sy| |sy my ey];
    try discriminate; intros _ _; unfold div; cbn [SFdiv]; try reflexivity.
  unfold SFdiv_core_binary.
  set (e' := Z.min _ _). set (m' := match ex - ey - e' with
                                    | 0 => Z.pos mx
                                    | Z.pos _ => Z.shiftl (Z.pos mx) (ex - ey - e')
                                    | Z.neg _ => 0
                                    end).
  assert (Hm : 0 <= m').
  { unfold m'. destruct (ex - ey - e') eqn:E; try lia.
    apply Z.shiftl_nonneg. lia. }
  pose proof (Z.div_pos m' (Z.pos my) Hm ltac:(lia)) as Hq.
  unfold Z.div in Hq.
  destruct (Z.div_eucl m' (Z.pos my)) as [q r].
  now apply binary_round_aux_number.
Qed.

(** On a bar of finite position and finite width other than zero, a
    pointer at a finite position is at a fraction that is a number. *)
Lemma percent_at_number (x : number) (rect : Rect) :
  is_finite x = true ->
  is_finite (rect_left rect) = true ->
  is_finite_nonzero (rect_width rect) = true ->
  is_nan (percent_at x rect) = false.
Proof.
  intros Hx Hl Hw. unfold percent_at.
  apply div_number; [now apply sub_number|exact Hw].
Qed.

Section VolumeRange.

Variable songs : list Song.
Variable rand : nat -> Z.

Lemma keeps_unit_refl (w : World) : keeps_unit w w.
Proof. intros H. exact H. Qed.

Lemma keeps_unit_trans (w1 w2 w3 : World) :
  keeps_unit w1 w2 -> keeps_unit w2 w3 -> keeps_unit w1 w3.
Proof. unfold keeps_unit. auto. Qed.

Lemma keeps_unit_same (w w' : World) :
  volume (hooks w') = volume (hooks w) -> keeps_unit w w'.
Proof. unfold keeps_unit. now intros ->. Qed.

Lemma volume_update_unit (x : number) (rect : Rect) (w : World) :
  is_nan (percent_at x rect) = false ->
  keeps_unit w (volume_update x rect w).
Proof. intros Hp _. now apply volume_update_in_unit. Qed.

Lemma shuffle_volume (fuel : nat) (c : Hooks) (w w' : World) :
  shuffle songs rand fuel c w = Done w' ->
  volume (hooks w') = volume (hooks w).
Proof.
  unfold shuffle. destruct (songs_length songs <=? 1).
  - now intros [= <-].
  - destruct (redraw rand fuel (current c) (draws w)) as [[next k]|];
      [|discriminate].
    now intros [= <-].
Qed.

Lemma nextSong_volume (fuel : nat) (c : Hooks) (w w' : World) :
  nextSong songs rand fuel c w = Done w' ->
  volume (hooks w') = volume (hooks w).
Proof.
  unfold nextSong. destruct (isShuffle c).
  - apply shuffle_volume.
  - now intros [= <-].
Qed.

Lemma onEnd_volume (fuel : nat) (c : Hooks) (w w' : World) :
  onEnd songs rand fuel c w = Done w' ->
  volume (hooks w') = volume (hooks w).
Proof.
  unfold onEnd.
  destruct (RepeatMode_eqb (repeatMode c) One).
  { intros [= <-]. now destruct (audioRef w). }
  destruct (isShuffle c); [apply shuffle_volume|].
  destruct (RepeatMode_eqb (repeatMode c) All); [apply nextSong_volume|].
  destruct (current c <? songs_length songs - 1); [apply nextSong_volume|].
  now intros [= <-].
Qed.

Lemma togglePlay_resume_volume (next : PlayerState) (w w' : World) :
  togglePlay_resume next w = Done w' ->
  volume (hooks w') = volume (hooks w).
Proof.
  unfold togglePlay_resume, command.
  destruct (PlayerState_eqb next playing), (audioRef w);
    cbn [bind]; try discriminate; now intros [= <-].
Qed.

Lemma togglePlay_settle_volume (fulfilled : bool) (w : World) :
  volume (hooks (togglePlay_settle fulfilled w)) = volume (hooks w).
Proof.
  unfold togglePlay_settle. now destruct (awaiting w), fulfilled.
Qed.

(** A handler leaves the volume in the unit interval when the fraction
    it reads is a number. *)
Lemma handle_keeps_unit (fuel : nat) (ev : Event) (w w' : World) :
  fraction_is_number ev = true ->
  handle songs rand fuel ev w = Done w' ->
  keeps_unit w w'.
Proof.
  intros Hok.
  destruct ev; cbn [handle].
  - (* Mount *) intros [= <-] _. reflexivity.
  - intros [= <-]. now apply keeps_unit_same.
  - (* ClickPlay *)
    intros [= <-]. apply keeps_unit_same. unfold togglePlay.
    now destruct (negb (audioRef w)
                  || PlayerState_eqb (state (hooks w)) loading).
  - (* TimerFires *)
    destruct (timers w) as [|next rest]; [now intros [= <-]; intros H|].
    destruct (togglePlay_resume next (with_timers rest w)) as [w1| |] eqn:E;
      cbn [bind]; try discriminate.
    intros [= <-]. apply keeps_unit_same.
    apply togglePlay_resume_volume in E.
    destruct (PlayerState_eqb next playing);
      [rewrite togglePlay_settle_volume|]; exact E.
  - intros [= <-]. now apply keeps_unit_same.
  - intros [= <-]. now apply keeps_unit_same.
  - intros H. apply keeps_unit_same. now apply nextSong_volume in H.
  - intros [= <-]. now apply keeps_unit_same.
  - (* Ended *)
    destruct (attached w) as [c|]; [|now intros [= <-]; intros H].
    intros H. apply keeps_unit_same. now apply onEnd_volume in H.
  - destruct (attached w); intros [= <-]; now apply keeps_unit_same.
  - destruct (attached w); intros [= <-]; now apply keeps_unit_same.
  - (* SeekMouseDown *)
    intros [= <-]. apply keeps_unit_same. unfold seek_onMouseDown. cbn.
    now rewrite hooks_seek_update.
  - unfold seek_onTouchStart.
    destruct touches as [|x ts]; cbn [first_touch bind]; [discriminate|].
    intros [= <-]. apply keeps_unit_same. cbn. now rewrite hooks_seek_update.
  - (* VolumeMouseDown *)
    intros [= <-]. cbn in Hok. apply negb_true_iff in Hok.
    intros _. unfold volume_onMouseDown. cbn [hooks addEventListener with_window].
    now apply volume_update_in_unit.
  - unfold volume_onTouchStart.
    destruct touches as [|x ts]; cbn [first_touch bind]; [discriminate|].
    intros [= <-]. cbn in Hok. apply negb_true_iff in Hok.
    intros _. cbn [hooks addEventListener with_window].
    now apply volume_update_in_unit.
  - (* MouseMove *)
    intros [= <-]. cbn in Hok. apply negb_true_iff in Hok.
    apply (fold_left_rel keeps_unit keeps_unit_refl keeps_unit_trans).
    intros w0 []; cbn [on_mousemove]; try apply keeps_unit_refl.
    + apply keeps_unit_same. now rewrite hooks_seek_update.
    + now apply volume_update_unit.
  - intros [= <-].
    apply (fold_left_rel keeps_unit keeps_unit_refl keeps_unit_trans).
    intros w0 []; cbn [on_mouseup]; now apply keeps_unit_same.
  - (* TouchMove *)
    intros H.
    eapply (fold_touchmove_rel keeps_unit keeps_unit_trans); [| |exact H].
    + intros l w0 w1. destruct l; cbn [on_touchmove];
        try (intros [= <-]; apply keeps_unit_refl);
        destruct touches as [|x ts]; cbn; try discriminate; intros [= <-].
      * apply keeps_unit_same. now rewrite hooks_seek_update.
      * cbn in Hok. apply negb_true_iff in Hok.
        now apply volume_update_unit.
    + intros w0 [= <-]. apply keeps_unit_refl.
  - intros [= <-].
    apply (fold_left_rel keeps_unit keeps_unit_refl keeps_unit_trans).
    intros w0 []; cbn [on_touchend]; now apply keeps_unit_same.
  - (* TimerElapses *)
    destruct (timers w) as [|next rest]; [now intros [= <-]; intros H|].
    intros E. apply keeps_unit_same.
    now apply togglePlay_resume_volume in E.
  - (* PlaySettles *)
    intros [= <-]. apply keeps_unit_same. apply togglePlay_settle_volume.
Qed.

Lemma step_volume_ok (fuel : nat) (ev : Event) (w w' : World) :
  fraction_is_number ev = true ->
  step songs rand fuel ev w = Done w' ->
  volume_ok w -> volume_ok w'.
Proof.
  intros Hok Hstep [Hv Hlog].
  destruct (step_cases songs rand fuel ev w w' Hstep)
    as [[-> ->]|(Hne & w1 & Hh & ->)].
  - split; [reflexivity|].
    intros v. rewrite log_mount. intros [[= <-]|[]]. reflexivity.
  - pose proof (handle_keeps_unit fuel ev w w1 Hok Hh Hv) as Hv1.
    assert (Hlog1 : forall v, In (SetVolume v) (log w1) -> in_unit v = true).
    { assert (Hcase : ev = Unmount \/ ev <> Unmount)
        by (destruct ev; (now left) || (right; discriminate)).
      destruct Hcase as [->|Hu].
      - cbn in Hh. injection Hh as <-. exact Hlog.
      - destruct (handle_footprint songs rand fuel ev w w1 Hne Hu Hh)
          as (_ & (cmds & Hl & Hb) & _).
        intros v. rewrite Hl. intros H. apply in_app_or in H as [H|H]; auto.
        rewrite forallb_forall in Hb. now specialize (Hb _ H). }
    split; [now rewrite hooks_commit|].
    intros v Hin.
    destruct (log_commit (hooks w) w1) as [E|[E|[_ E]]];
      rewrite E in Hin; auto;
      apply in_app_or in Hin as [H|H]; auto;
      cbn in H; destruct H as [[= <-]|H]; auto;
      repeat (destruct H as [H|H]; try discriminate); contradiction.
Qed.

Lemma run_volume_ok (fuel : nat) (evs : list Event) :
  forall w w',
    forallb fraction_is_number evs = true ->
    run songs rand fuel evs w = Done w' ->
    volume_ok w -> volume_ok w'.
Proof.
  induction evs as [|ev evs IH]; intros w w' Hok; cbn [run].
  - now intros [= <-].
  - cbn [forallb] in Hok. apply andb_prop in Hok as [Hev Hevs].
    destruct (step songs rand fuel ev w) as [w1| |] eqn:Hs;
      cbn [bind]; try discriminate.
    intros Hrun Hw. apply (IH w1 w' Hevs Hrun).
    exact (step_volume_ok fuel ev w w1 Hev Hs Hw).
Qed.

(** C8. The volume is always in [0, 1]. On a bar of finite position and
    finite width other than zero the pointer fraction is a number; and
    along every run of events whose fractions on the volume bar are
    numbers, starting from the initial state, the volume held in state
    (the initial one, and the one every mouse or touch update of a drag
    assigns) is in [0, 1], and so is every volume given to the
    element. *)
Theorem volume_always_in_unit :
  (forall x rect,
     is_finite x = true ->
     is_finite (rect_left rect) = true ->
     is_finite_nonzero (rect_width rect) = true ->
     is_nan (percent_at x rect) = false) /\
  (forall fuel evs w,
     forallb fraction_is_number evs = true ->
     run songs rand fuel evs initial = Done w ->
     in_unit (volume (hooks w)) = true /\
     forall v, In (SetVolume v) (log w) -> in_unit v = true).
Proof.
  split; [exact percent_at_number|].
  intros fuel evs w Hok Hrun.
  apply (run_volume_ok fuel evs initial w Hok Hrun).
  split; [reflexivity|intros v []].
Qed.

End VolumeRange.

(** ** The further properties at concrete inputs *)

Lemma reachable_world_after (evs : list Event) :
  reachable playlist round_robin (world_after evs).
Proof.
  unfold world_after.
  destruct (run playlist round_robin 2 evs initial) as [w| |] eqn:E;
    try apply reachable_initial.
  exact (run_reachable playlist round_robin 2 evs initial w
           (reachable_initial playlist round_robin) E).
Qed.

(** [play_pause_round] right after mounting, where the state is paused:
    play is sent, and the state is playing once the promise is
    fulfilled and still loading if it is rejected. *)
Lemma play_pause_round_witness :
  audioRef mounted = true /\ timers mounted = [] /\
  state (hooks mounted) <> loading /\
  state (hooks mounted) = paused /\
  exists w1 w2 w3 w4,
    step playlist round_robin 1 ClickPlay mounted = Done w1 /\
    step playlist round_robin 1 TimerElapses w1 = Done w2 /\
    state (hooks w2) = loading /\
    log w2 = log mounted ++ [Play] /\
    step playlist round_robin 1 (PlaySettles true) w2 = Done w3 /\
    state (hooks w3) = playing /\
    step playlist round_robin 1 (PlaySettles false) w2 = Done w4 /\
    state (hooks w4) = loading.
Proof.
  assert (Hs : state (hooks mounted) <> loading) by (vm_compute; discriminate).
  split; [reflexivity|]. split; [reflexivity|]. split; [exact Hs|].
  split; [reflexivity|].
  destruct (play_pause_round playlist round_robin 1 mounted eq_refl eq_refl Hs)
    as (w1 & H1 & _ & _ & _ & _ & Hplay).
  destruct (Hplay eq_refl)
    as (w2 & H2 & S2 & L2 & _ & _ & _ & _ & (w3 & H3 & S3 & _) &
        (w4 & H4 & S4 & _)).
  exists w1, w2, w3, w4.
  exact (conj H1 (conj H2 (conj S2 (conj L2
           (conj H3 (conj S3 (conj H4 S4))))))).
Defined.

(** [next_prev_repeated] on the shipped playlist: five times next from
    the first track leads to the third, five times previous to the
    second, three times either way back to the first. *)
Lemma next_prev_repeated_witness :
  0 <= current (hooks mounted) < songs_length playlist /\
  isShuffle (hooks mounted) = false /\
  (exists w', run playlist round_robin 1 (repeat ClickNext 5) mounted = Done w' /\
              current (hooks w') = 2) /\
  (exists w', run playlist round_robin 1 (repeat ClickPrev 5) mounted = Done w' /\
              current (hooks w') = 1) /\
  (exists w', run playlist round_robin 1 (repeat ClickNext 3) mounted = Done w' /\
              current (hooks w') = 0).
Proof.
  assert (H : 0 <= current (hooks mounted) < songs_length playlist)
    by (vm_compute; split; [discriminate|reflexivity]).
  destruct (next_prev_repeated playlist round_robin 1 mounted 5 H)
    as (Hn & Hp & _).
  destruct (Hn eq_refl) as (Hn5 & Hn3).
  exact (conj H (conj eq_refl (conj Hn5 (conj Hp Hn3)))).
Defined.

(** [current_song_defined] after next was pressed twice. *)
Lemma current_song_defined_witness :
  let w := world_after [Mount; ClickNext; ClickNext] in
  0 < songs_length playlist /\
  reachable playlist round_robin w /\
  0 <= current (hooks w) < songs_length playlist /\
  exists song, current_song playlist w = Some song.
Proof.
  cbv zeta.
  assert (Hn : 0 < songs_length playlist) by reflexivity.
  pose proof (reachable_world_after [Mount; ClickNext; ClickNext]) as Hr.
  destruct (current_song_defined playlist round_robin _ Hn round_robin_range Hr)
    as [Hi Hs].
  exact (conj Hn (conj Hr (conj Hi Hs))).
Defined.

(** [listeners_follow_index_and_volume]: repeat was turned to one, which
    left the listeners of the first render in place; pressing next
    registers listeners that see repeat one. *)
Lemma listeners_follow_index_and_volume_witness :
  let w := world_after [Mount; ClickRepeat] in
  option_map repeatMode (attached w) = Some Off /\
  exists w',
    step playlist round_robin 1 ClickNext w = Done w' /\
    audioRef w' = true /\
    current (hooks w') <> current (hooks w) /\
    attached w' = Some (hooks w') /\
    option_map repeatMode (attached w') = Some One.
Proof.
  cbv zeta. split; [reflexivity|].
  eexists. split; [vm_compute; reflexivity|].
  assert (Hc : 1 <> current (hooks (world_after [Mount; ClickRepeat])))
    by (vm_compute; discriminate).
  split; [reflexivity|]. split; [exact Hc|].
  assert (Ha := listeners_follow_index_and_volume playlist round_robin 1
                  ClickNext (world_after [Mount; ClickRepeat]) _
                  eq_refl eq_refl (or_introl Hc)).
  split; [exact Ha|reflexivity].
Defined.

(** [media_numbers_stay_numbers] after a time update with current time
    0 and duration 0, whose quotient is NaN. *)
Lemma media_numbers_stay_numbers_witness :
  let w := world_after [Mount; TimeUpdate zero zero; LoadedMetadata NaN] in
  reachable playlist round_robin w /\
  is_nan (div zero zero) = true /\
  is_nan (progress (hooks w)) = false /\
  is_nan (duration (hooks w)) = false.
Proof.
  cbv zeta.
  pose proof (reachable_world_after
                [Mount; TimeUpdate zero zero; LoadedMetadata NaN]) as Hr.
  destruct (media_numbers_stay_numbers playlist round_robin _ Hr) as [Hp Hd].
  exact (conj Hr (conj eq_refl (conj Hp Hd))).
Defined.

(** [load_needs_user_start] after play, the timer and next: the log
    holds a load and the flag is set. *)
Lemma load_needs_user_start_witness :
  let w := world_after [Mount; ClickPlay; TimerFires; ClickNext] in
  reachable playlist round_robin w /\
  In Load (log w) /\
  userStarted (hooks w) = true.
Proof.
  cbv zeta.
  pose proof (reachable_world_after [Mount; ClickPlay; TimerFires; ClickNext])
    as Hr.
  assert (Hin : In Load (log (world_after
                               [Mount; ClickPlay; TimerFires; ClickNext])))
    by (vm_compute; auto).
  exact (conj Hr (conj Hin
           (proj1 (load_needs_user_start playlist round_robin) _ Hr Hin))).
Defined.

(** [element_volume_follows_state] after a pointer-down in the middle of
    the volume bar. *)
Lemma element_volume_follows_state_witness :
  let w := world_after
             [Mount; VolumeMouseDown (of_Z 150) (mkRect (of_Z 100) (of_Z 100))] in
  reachable playlist round_robin w /\
  audioRef w = true /\
  volume (hooks w) = div (of_Z 1) (of_Z 2) /\
  last_volume (log w) = Some (volume (hooks w)).
Proof.
  cbv zeta.
  pose proof (reachable_world_after
                [Mount;
                 VolumeMouseDown (of_Z 150) (mkRect (of_Z 100) (of_Z 100))])
    as Hr.
  exact (conj Hr (conj eq_refl (conj eq_refl
           (element_volume_follows_state playlist round_robin _ Hr eq_refl)))).
Defined.

(** [mouse_drag_releases_listeners] for a drag with two moves. *)
Lemma mouse_drag_releases_listeners_witness :
  let box := mkRect (of_Z 100) (of_Z 200) in
  let moves := [(of_Z 160, box, box); (of_Z 400, box, box)] in
  window mounted = [] /\
  exists w',
    run playlist round_robin 1
      (VolumeMouseDown (of_Z 150) box :: map mouse_move moves ++ [MouseUp])
      mounted = Done w' /\
    window w' = [].
Proof.
  cbv zeta. split; [reflexivity|].
  exact (proj2 (mouse_drag_releases_listeners playlist round_robin 1 mounted
                  (of_Z 150) (mkRect (of_Z 100) (of_Z 200))
                  [(of_Z 160, mkRect (of_Z 100) (of_Z 200),
                    mkRect (of_Z 100) (of_Z 200));
                   (of_Z 400, mkRect (of_Z 100) (of_Z 200),
                    mkRect (of_Z 100) (of_Z 200))]
                  eq_refl)).
Defined.

(** [touch_drag_releases_listeners] for a drag with one move. *)
Lemma touch_drag_releases_listeners_witness :
  let box := mkRect (of_Z 100) (of_Z 200) in
  window mounted = [] /\
  exists w',
    run playlist round_robin 1
      (SeekTouchStart [of_Z 150] box
         :: map touch_move [(of_Z 160, [], box, box)] ++ [TouchEnd])
      mounted = Done w' /\
    window w' = [].
Proof.
  cbv zeta. split; [reflexivity|].
  exact (proj1 (touch_drag_releases_listeners playlist round_robin 1 mounted
                  (of_Z 150) [] (mkRect (of_Z 100) (of_Z 200))
                  [(of_Z 160, [], mkRect (of_Z 100) (of_Z 200),
                    mkRect (of_Z 100) (of_Z 200))]
                  eq_refl)).
Defined.

(** [seek_drag_keeps_duration] for a drag that starts before the
    metadata is known: 180 s arrive during the drag and nothing is
    sent. *)
Lemma seek_drag_keeps_duration_witness :
  let box := mkRect (of_Z 100) (of_Z 200) in
  window mounted = [] /\ audioRef mounted = true /\
  truthy (duration (hooks mounted)) = false /\
  exists w',
    run playlist round_robin 1
      [SeekMouseDown (of_Z 150) box; LoadedMetadata (of_Z 180);
       MouseMove (of_Z 200) box box] mounted = Done w' /\
    log w' = log mounted /\
    duration (hooks w') = of_Z 180.
Proof.
  cbv zeta. split; [reflexivity|]. split; [reflexivity|].
  split; [reflexivity|].
  destruct (seek_drag_keeps_duration playlist round_robin 1 mounted
              (of_Z 150) (mkRect (of_Z 100) (of_Z 200)) (of_Z 180)
              (of_Z 200) (mkRect (of_Z 100) (of_Z 200))
              (mkRect (of_Z 100) (of_Z 200)) eq_refl eq_refl)
    as (w' & Hrun & Hlog).
  exists w'. split; [exact Hrun|]. split.
  - rewrite Hlog. apply app_nil_r.
  - revert Hrun. vm_compute. now intros [= <-].
Defined.

(** [shuffle_spins_on_repeated_draws] on the first track with the oracle
    that always draws the first track. *)
Lemma shuffle_spins_on_repeated_draws_witness :
  1 < songs_length playlist /\
  (forall k, (draws mounted <= k)%nat ->
             always_first k = current (hooks mounted)) /\
  shuffle playlist always_first 1000 (hooks mounted) mounted = Spinning.
Proof.
  assert (H1 : 1 < songs_length playlist) by reflexivity.
  assert (H2 : forall k, (draws mounted <= k)%nat ->
                         always_first k = current (hooks mounted))
    by (intros k _; reflexivity).
  exact (conj H1 (conj H2
           (shuffle_spins_on_repeated_draws playlist always_first 1000
              (hooks mounted) mounted H1 H2))).
Defined.

(** [formatTime_minutes_seconds] at 125 seconds and at one hour, two
    minutes and five seconds. *)
Lemma formatTime_minutes_seconds_witness :
  0 <= 125 < 7200 /\ 0 <= 3725 < 7200 /\
  formatTime unprinted (of_Z 125) = minutes_seconds 125 /\
  formatTime unprinted (of_Z 3725) = minutes_seconds 3725.
Proof.
  assert (H1 : 0 <= 125 < 7200) by lia.
  assert (H2 : 0 <= 3725 < 7200) by lia.
  split; [exact H1|]. split; [exact H2|]. split.
  - exact (proj1 (formatTime_minutes_seconds unprinted) 125 H1).
  - exact (proj1 (formatTime_minutes_seconds unprinted) 3725 H2).
Defined.

(** [volume_always_in_unit] for a drag on the volume bar that goes past
    its right end and back before its left end, on a bar that starts at
    x = 100 and is 200 wide. *)
Lemma volume_always_in_unit_witness :
  let box := mkRect (of_Z 100) (of_Z 200) in
  let evs := [Mount; VolumeMouseDown (of_Z 150) box;
              MouseMove (of_Z 400) box box; MouseMove (of_Z 20) box box;
              MouseUp] in
  is_finite (of_Z 400) = true /\
  is_finite (rect_left box) = true /\
  is_finite_nonzero (rect_width box) = true /\
  is_nan (percent_at (of_Z 400) box) = false /\
  forallb fraction_is_number evs = true /\
  run playlist round_robin 1 evs initial = Done (world_after evs) /\
  volume (hooks (world_after evs)) = zero /\
  In (SetVolume one) (log (world_after evs)) /\
  in_unit (volume (hooks (world_after evs))) = true /\
  (forall v, In (SetVolume v) (log (world_after evs)) -> in_unit v = true).
Proof.
  cbv zeta.
  set (box := mkRect (of_Z 100) (of_Z 200)).
  set (evs := [Mount; VolumeMouseDown (of_Z 150) box;
               MouseMove (of_Z 400) box box; MouseMove (of_Z 20) box box;
               MouseUp]).
  assert (H1 : is_finite (of_Z 400) = true) by (vm_compute; reflexivity).
  assert (H2 : is_finite (rect_left box) = true) by (vm_compute; reflexivity).
  assert (H3 : is_finite_nonzero (rect_width box) = true)
    by (vm_compute; reflexivity).
  assert (Hok : forallb fraction_is_number evs = true)
    by (vm_compute; reflexivity).
  assert (Hrun : run playlist round_robin 1 evs initial = Done (world_after evs))
    by (vm_compute; reflexivity).
  assert (Hz : volume (hooks (world_after evs)) = zero)
    by (vm_compute; reflexivity).
  assert (Hin : In (SetVolume one) (log (world_after evs)))
    by (vm_compute; auto).
  destruct (volume_always_in_unit playlist round_robin) as [Hnum Hrange].
  destruct (Hrange 1%nat evs (world_after evs) Hok Hrun) as [Hv Hlog].
  exact (conj H1 (conj H2 (conj H3
           (conj (Hnum (of_Z 400) box H1 H2 H3)
              (conj Hok (conj Hrun (conj Hz
                 (conj Hin (conj Hv Hlog))))))))).
Defined.

End MusicPlayer.
